(** * Slotted inventory of item stacks, and the recipe registry

    A shallow embedding of the Go package [inventory] (type [Inventory] with
    [New], [Item], [SetItem], [AddItem], [RemoveItem], [Empty], [Size],
    [Close]) and of the package [recipe] ([Register], [Recipes]).

    Conventions of the embedding.
    - Go's [int] is [Z]; the two places where the inventory does arithmetic
      on an [int] ([-toRemove] and [toRemove -= slotIt.Count()]) carry their
      64-bit two's-complement wrap-around, see [go.wrap].
    - A [panic] is the [Panicked] outcome; a call that comes back is
      [Returned].
    - The Go [error] results are [option error], [None] being [nil].
    - [*Inventory] is a mutable object: every method takes the current
      inventory and yields the next one.  The callback [f] may do anything to
      the world outside the inventory, so it is a transformer of an abstract
      world [World]; it cannot touch the slots (they are private, and the
      methods would block on the lock held around the callback).
    - The reader/writer mutex only brackets the bodies; in this sequential
      semantics acquiring and releasing it does nothing and it is left out.
    - [item.Stack] lives in another package.  The inventory uses it through
      a handful of operations, collected in the class [item.StackOps]; a
      concrete instance follows the description of the stack capabilities. *)

From Stdlib Require Import ZArith Lia.
From stdpp Require Import base option list strings.

Local Open Scope Z_scope.

(** ** Go runtime notions *)

Module go.

(** What a call does: it returns a value or it panics with a message. *)
Inductive outcome (A : Type) : Type :=
| Returned (a : A)
| Panicked (msg : string).
Global Arguments Returned {A} a.
Global Arguments Panicked {A} msg.

Definition bind {A B : Type} (m : outcome A) (k : A -> outcome B) : outcome B :=
  match m with
  | Returned a => k a
  | Panicked msg => Panicked msg
  end.

Definition panics {A : Type} (m : outcome A) : Prop :=
  match m with Returned _ => False | Panicked _ => True end.

(** [int] on a 64-bit platform. *)
Definition int_min : Z := - 2 ^ 63.
Definition int_max : Z := 2 ^ 63 - 1.

(** The value an [int] expression takes after overflow. *)
Definition wrap (z : Z) : Z := (z + 2 ^ 63) mod 2 ^ 64 - 2 ^ 63.

Definition is_int (z : Z) : Prop := int_min <= z <= int_max.

(** The message of the runtime panic of an indexing expression [s[i]]
    whose index is not within [0 <= i < len(s)]. *)
Definition index_out_of_range : string := "runtime error: index out of range".

End go.

#[global] Instance outcome_ret : MRet go.outcome := @go.Returned.
#[global] Instance outcome_bind : MBind go.outcome := fun A B k m => go.bind m k.

(** ** The item package: stacks *)

Module item.

(** The methods of [item.Stack] (and the constructor [item.NewStack]) that
    the packages at hand call: the inventory uses all of them but
    [MaxCount], which the item entity reads.  [ItemT] is the type of the
    value a stack holds ([world.Item]); [zero] is the zero value
    [item.Stack{}]. *)
Class StackOps (Stack ItemT : Type) : Type := {
  zero : Stack;
  NewStack : ItemT -> Z -> Stack;
  Item : Stack -> ItemT;
  Count : Stack -> Z;
  MaxCount : Stack -> Z;
  Empty : Stack -> bool;
  Comparable : Stack -> Stack -> bool;
  AddStack : Stack -> Stack -> Stack * Stack;
  Grow : Stack -> Z -> Stack
}.

(** *** The stack of the capability description

    [item.Stack] is not part of the sources at hand.  The concrete stack
    below is written after the list of capabilities the inventory relies
    on: a stack is "zero or more units of one resource type".  [Id] is the
    type of resource identities, [nil] the identity of the zero value
    [item.Stack{}], and [max_count] the maximum quantity of a stack of a
    given identity. *)

Section Model.
Context {Id : Type} {Id_eq_dec : EqDecision Id}.
Variable nil : Id.
Variable max_count : Id -> Z.

(** Modelled from the spec: the struct [item.Stack], "a value representing
    zero or more units of one resource type": an identity and a quantity. *)
Record Stack : Type := mkStack { item : Id; count : Z }.

(** Modelled from the spec: [item.Stack{}], the zero value found in the
    slots of a fresh inventory; a zero-quantity stack. *)
Definition model_zero : Stack := {| item := nil; count := 0 |}.

(** Modelled from the spec: [item.NewStack], "stack(id, q)"; a stack holds
    zero or more units, so a negative quantity gives none. *)
Definition model_NewStack (t : Id) (n : Z) : Stack :=
  {| item := t; count := Z.max 0 n |}.

(** Modelled from the spec: [Stack.Count], "quantity() -> integer". *)
Definition model_Count (s : Stack) : Z := count s.

(** Modelled from the spec: [Stack.MaxCount], "maximumQuantity() -> integer". *)
Definition model_MaxCount (s : Stack) : Z := max_count (item s).

(** Modelled from the spec: [Stack.Empty], "isEmpty() -> bool": "a slot
    holding a zero-quantity stack is considered empty". *)
Definition model_Empty (s : Stack) : bool := count s =? 0.

(** Modelled from the spec: [Stack.Comparable], "true iff two stacks hold
    the same resource identity and could be merged". *)
Definition model_Comparable (s s2 : Stack) : bool := bool_decide (item s = item s2).

(** Modelled from the spec: [Stack.AddStack], "combine(other) -> (filled,
    remainder)": "merges other into the receiver up to capacity; returns the
    resulting receiver stack and whatever could not be absorbed"; it "never
    exceeds maximumQuantity".  Nothing of a stack of another identity can be
    absorbed. *)
Definition model_AddStack (s s2 : Stack) : Stack * Stack :=
  if model_Comparable s s2 then
    let diff := Z.max 0 (Z.min (model_MaxCount s - count s) (count s2)) in
    ({| item := item s; count := count s + diff |},
     {| item := item s2; count := count s2 - diff |})
  else (s, s2).

(** Modelled from the spec: [Stack.Grow], "adjust(delta) -> Stack": "returns
    a copy with quantity increased (delta>0) or decreased (delta<0), clamped
    so quantity never goes negative". *)
Definition model_Grow (s : Stack) (n : Z) : Stack :=
  {| item := item s; count := Z.max 0 (count s + n) |}.

(** Modelled from the spec: the capability set of the resource stack, as an
    instance of the interface the inventory is written against. *)
Definition model_ops : StackOps Stack Id :=
  {| zero := model_zero;
     NewStack := model_NewStack;
     Item := item;
     Count := model_Count;
     MaxCount := model_MaxCount;
     Empty := model_Empty;
     Comparable := model_Comparable;
     AddStack := model_AddStack;
     Grow := model_Grow |}.

(** What is found, after an add of [it] that filled every place it could,
    in a slot that held [s]: the first loop tops a non-empty stack of the
    identity of [it] up to its maximum, the second loop puts a full stack of
    that identity into an empty slot; any other stack stays. *)
Definition topped_existing (it s : Stack) : Stack :=
  if model_Empty s then s
  else if model_Comparable s it
       then {| item := item s; count := Z.max (count s) (model_MaxCount s) |}
       else s.

Definition filled_empty (it s : Stack) : Stack :=
  if model_Empty s then {| item := item it; count := Z.max 0 (model_MaxCount it) |}
  else s.

Definition topped_up (it s : Stack) : Stack :=
  if model_Empty s then {| item := item it; count := Z.max 0 (model_MaxCount it) |}
  else if model_Comparable s it
       then {| item := item s; count := Z.max (count s) (model_MaxCount s) |}
       else s.

(** A slot that could take units of [it]: an empty one, or one whose stack
    is comparable to [it]; and a slot that has no room left. *)
Definition accepts (it s : Stack) : Prop :=
  model_Empty s = true \/ model_Comparable s it = true.

Definition full (s : Stack) : Prop := model_MaxCount s <= model_Count s.

(** The number of units of identity [t] that the stacks [l] hold. *)
Fixpoint quantity_of (t : Id) (l : list Stack) : Z :=
  match l with
  | [] => 0
  | s :: rest => (if bool_decide (item s = t) then count s else 0) + quantity_of t rest
  end.

(** The number of units of [it] that a slot holding [s] can still take: a
    whole stack if the slot is empty, what is missing to the maximum if it
    holds a stack comparable to [it], nothing otherwise. *)
Definition room_in (it s : Stack) : Z :=
  if model_Empty s then Z.max 0 (model_MaxCount it)
  else if model_Comparable s it then Z.max 0 (model_MaxCount s - count s)
       else 0.

Fixpoint room_for (it : Stack) (l : list Stack) : Z :=
  match l with
  | [] => 0
  | s :: rest => room_in it s + room_for it rest
  end.

(** A stack that holds no more than its maximum, and the maximum is an
    [int]. *)
Definition within_capacity (s : Stack) : Prop :=
  0 <= count s <= model_MaxCount s /\ model_MaxCount s <= go.int_max.

End Model.
Global Arguments Stack : clear implicits.

End item.

(** ** The inventory package *)

Module inventory.

(** The errors the package returns.  [ErrSlotOutOfRange] is the package
    variable of that name; the other two are the values built by
    [fmt.Errorf("could not add full item stack to inventory")] and
    [fmt.Errorf("could not remove all items from the inventory")]. *)
Inductive error : Type :=
| ErrSlotOutOfRange
| ErrCouldNotAdd
| ErrCouldNotRemove.

(** How a [for ... range] loop with an early [return nil] ends: it returned,
    or it ran to its end with the loop-carried value [x]. *)
Inductive loop_end (X : Type) : Type :=
| ReturnedNil
| FellThrough (x : X).
Global Arguments ReturnedNil {X}.
Global Arguments FellThrough {X} x.

Section Inventory.
Context {Stack ItemT : Type} {ops : item.StackOps Stack ItemT}.
Context {World : Type}.

(** [func(slot int, item item.Stack)], acting on the outside world. *)
Definition hook : Type := Z -> Stack -> World -> World.

Definition no_op : hook := fun _ _ w => w.

Record Inventory : Type := { slots : list Stack; f : hook }.

(** The zero value [Inventory{}]: a nil slice and a nil function. Calling
    the nil function would panic; no method reaches that call on the zero
    value, because none of them enters a slot loop there. *)
Definition zero_value : Inventory := {| slots := []; f := no_op |}.

Definition New (size : Z) (fn : option hook) : go.outcome Inventory :=
  if size <=? 0 then go.Panicked "inventory size must be at least 1"
  else
    let fn := match fn with None => no_op | Some g => g end in
    go.Returned {| slots := replicate (Z.to_nat size) item.zero; f := fn |}.

Definition Size (inv : Inventory) : Z := Z.of_nat (length (slots inv)).

Definition validSlot (inv : Inventory) (slot : Z) : bool :=
  (0 <=? slot) && (slot <? Size inv).

Definition check (inv : Inventory) : go.outcome unit :=
  if Size inv =? 0
  then go.Panicked
         "uninitialised inventory: inventory must be constructed using inventory.New()"
  else go.Returned tt.

Definition Item (inv : Inventory) (slot : Z) : go.outcome (Stack * option error) :=
  _ ← check inv;
  if negb (validSlot inv slot) then go.Returned (item.zero, Some ErrSlotOutOfRange)
  else
    match slots inv !! Z.to_nat slot with
    | Some i => go.Returned (i, None)
    | None => go.Panicked go.index_out_of_range
    end.

(** [inv.slots[slot] = item; inv.f(slot, item)] *)
Definition setItem (inv : Inventory) (slot : Z) (it : Stack) (w : World)
  : go.outcome (Inventory * World) :=
  if (0 <=? slot) && (slot <? Z.of_nat (length (slots inv)))
  then go.Returned ({| slots := <[Z.to_nat slot := it]> (slots inv); f := f inv |},
                    f inv slot it w)
  else go.Panicked go.index_out_of_range.

Definition SetItem (inv : Inventory) (slot : Z) (it : Stack) (w : World)
  : go.outcome (option error * Inventory * World) :=
  _ ← check inv;
  if negb (validSlot inv slot) then go.Returned (Some ErrSlotOutOfRange, inv, w)
  else
    '(inv', w') ← setItem inv slot it w;
    go.Returned (None, inv', w').

(** The first loop of [AddItem], over the slot numbers [idxs] that are
    left to visit.  [for slot, invIt := range inv.slots] reads element
    [slot] of the slice when it reaches it. *)
Fixpoint AddItem_existing (idxs : list nat) (it : Stack) (inv : Inventory) (w : World)
  : go.outcome (loop_end Stack * Inventory * World) :=
  match idxs with
  | [] => go.Returned (FellThrough it, inv, w)
  | slot :: rest =>
      match slots inv !! slot with
      | None => go.Panicked go.index_out_of_range
      | Some invIt =>
          if item.Empty invIt then AddItem_existing rest it inv w
          else
            let '(a, b) := item.AddStack invIt it in
            '(inv', w') ← setItem inv (Z.of_nat slot) a w;
            if item.Empty b then go.Returned (ReturnedNil, inv', w')
            else AddItem_existing rest b inv' w'
      end
  end.

(** The second loop of [AddItem]. *)
Fixpoint AddItem_empty (idxs : list nat) (it : Stack) (inv : Inventory) (w : World)
  : go.outcome (loop_end Stack * Inventory * World) :=
  match idxs with
  | [] => go.Returned (FellThrough it, inv, w)
  | slot :: rest =>
      match slots inv !! slot with
      | None => go.Panicked go.index_out_of_range
      | Some invIt =>
          if negb (item.Empty invIt) then AddItem_empty rest it inv w
          else
            let invIt := item.NewStack (item.Item it) 0 in
            let '(a, b) := item.AddStack invIt it in
            '(inv', w') ← setItem inv (Z.of_nat slot) a w;
            if item.Empty b then go.Returned (ReturnedNil, inv', w')
            else AddItem_empty rest b inv' w'
      end
  end.

Definition AddItem (inv : Inventory) (it : Stack) (w : World)
  : go.outcome (option error * Inventory * World) :=
  '(e1, inv1, w1) ← AddItem_existing (seq 0 (length (slots inv))) it inv w;
  match e1 with
  | ReturnedNil => go.Returned (None, inv1, w1)
  | FellThrough it1 =>
      '(e2, inv2, w2) ← AddItem_empty (seq 0 (length (slots inv1))) it1 inv1 w1;
      match e2 with
      | ReturnedNil => go.Returned (None, inv2, w2)
      | FellThrough _ => go.Returned (Some ErrCouldNotAdd, inv2, w2)
      end
  end.

(** The loop of [RemoveItem]; [toRemove] is the loop-carried [int]. *)
Fixpoint RemoveItem_loop (idxs : list nat) (it : Stack) (toRemove : Z)
    (inv : Inventory) (w : World)
  : go.outcome (loop_end Z * Inventory * World) :=
  match idxs with
  | [] => go.Returned (FellThrough toRemove, inv, w)
  | slot :: rest =>
      match slots inv !! slot with
      | None => go.Panicked go.index_out_of_range
      | Some slotIt =>
          if item.Empty slotIt then RemoveItem_loop rest it toRemove inv w
          else if negb (item.Comparable slotIt it)
          then RemoveItem_loop rest it toRemove inv w
          else
            '(inv', w') ← setItem inv (Z.of_nat slot)
                            (item.Grow slotIt (go.wrap (- toRemove))) w;
            let toRemove := go.wrap (toRemove - item.Count slotIt) in
            if toRemove <=? 0 then go.Returned (ReturnedNil, inv', w')
            else RemoveItem_loop rest it toRemove inv' w'
      end
  end.

Definition RemoveItem (inv : Inventory) (it : Stack) (w : World)
  : go.outcome (option error * Inventory * World) :=
  let toRemove := item.Count it in
  '(e, inv', w') ← RemoveItem_loop (seq 0 (length (slots inv))) it toRemove inv w;
  match e with
  | ReturnedNil => go.Returned (None, inv', w')
  | FellThrough _ => go.Returned (Some ErrCouldNotRemove, inv', w')
  end.

Fixpoint Empty_loop (its : list Stack) : bool :=
  match its with
  | [] => true
  | it :: rest => if negb (item.Empty it) then false else Empty_loop rest
  end.

Definition Empty (inv : Inventory) : bool := Empty_loop (slots inv).

Definition Close (inv : Inventory) (w : World)
  : go.outcome (option error * Inventory * World) :=
  go.Returned (None, {| slots := slots inv; f := no_op |}, w).

(** *** Sequences of calls *)

(** A call of one of the public methods, and what it hands back. *)
Inductive call : Type :=
| CallItem (slot : Z)
| CallSetItem (slot : Z) (it : Stack)
| CallAddItem (it : Stack)
| CallRemoveItem (it : Stack)
| CallEmpty
| CallSize
| CallClose.

Inductive reply : Type :=
| ReplyItem (it : Stack) (err : option error)
| ReplyError (err : option error)
| ReplyBool (b : bool)
| ReplyInt (n : Z).

Definition run (c : call) (inv : Inventory) (w : World)
  : go.outcome (reply * Inventory * World) :=
  match c with
  | CallItem slot =>
      '(i, e) ← Item inv slot; go.Returned (ReplyItem i e, inv, w)
  | CallSetItem slot it =>
      '(e, inv', w') ← SetItem inv slot it w; go.Returned (ReplyError e, inv', w')
  | CallAddItem it =>
      '(e, inv', w') ← AddItem inv it w; go.Returned (ReplyError e, inv', w')
  | CallRemoveItem it =>
      '(e, inv', w') ← RemoveItem inv it w; go.Returned (ReplyError e, inv', w')
  | CallEmpty => go.Returned (ReplyBool (Empty inv), inv, w)
  | CallSize => go.Returned (ReplyInt (Size inv), inv, w)
  | CallClose =>
      '(e, inv', w') ← Close inv w; go.Returned (ReplyError e, inv', w')
  end.

Fixpoint run_all (cs : list call) (inv : Inventory) (w : World)
  : go.outcome (list reply * Inventory * World) :=
  match cs with
  | [] => go.Returned ([], inv, w)
  | c :: rest =>
      '(r, inv1, w1) ← run c inv w;
      '(rs, inv2, w2) ← run_all rest inv1 w1;
      go.Returned (r :: rs, inv2, w2)
  end.

(** *** The common shape of the slot loops

    Each of the three loops visits the slots in ascending order and, at a
    slot, either moves on ([Skip]) or writes a stack to the slot with
    [setItem], updates the loop-carried value and possibly returns nil
    ([Write a x stop]).  [range_slots] is that loop for an arbitrary body;
    the three loops of the source are instances of it (lemmas
    [AddItem_existing_range], [AddItem_empty_range], [RemoveItem_loop_range]). *)
Inductive visit (X : Type) : Type :=
| Skip
| Write (a : Stack) (x : X) (stop : bool).
Global Arguments Skip {X}.
Global Arguments Write {X} a x stop.

Fixpoint range_slots {X : Type} (body : Stack -> X -> visit X) (idxs : list nat) (x : X)
    (inv : Inventory) (w : World) : go.outcome (loop_end X * Inventory * World) :=
  match idxs with
  | [] => go.Returned (FellThrough x, inv, w)
  | slot :: rest =>
      match slots inv !! slot with
      | None => go.Panicked go.index_out_of_range
      | Some s =>
          match body s x with
          | Skip => range_slots body rest x inv w
          | Write a x' stop =>
              '(inv', w') ← setItem inv (Z.of_nat slot) a w;
              if stop then go.Returned (ReturnedNil, inv', w')
              else range_slots body rest x' inv' w'
          end
      end
  end.

Definition existing_body (invIt it : Stack) : visit Stack :=
  if item.Empty invIt then Skip
  else let '(a, b) := item.AddStack invIt it in Write a b (item.Empty b).

Definition empty_body (invIt it : Stack) : visit Stack :=
  if negb (item.Empty invIt) then Skip
  else
    let '(a, b) := item.AddStack (item.NewStack (item.Item it) 0) it in
    Write a b (item.Empty b).

Definition remove_body (it : Stack) (slotIt : Stack) (toRemove : Z) : visit Z :=
  if item.Empty slotIt then Skip
  else if negb (item.Comparable slotIt it) then Skip
  else
    let r := go.wrap (toRemove - item.Count slotIt) in
    Write (item.Grow slotIt (go.wrap (- toRemove))) r (r <=? 0).

(** What a loop of that shape does to the slots, seen on the slots alone:
    from slot number [i] on, over the stacks [l] found there, it yields the
    stacks left in these slots, the writes made (slot number and stack, in
    the order they happen) and how the loop ends. *)
Fixpoint sweep {X : Type} (body : Stack -> X -> visit X) (i : nat) (l : list Stack) (x : X)
  : list Stack * list (Z * Stack) * loop_end X :=
  match l with
  | [] => ([], [], FellThrough x)
  | s :: rest =>
      match body s x with
      | Skip =>
          let '(l', ws, e) := sweep body (S i) rest x in (s :: l', ws, e)
      | Write a x' stop =>
          if stop then (a :: rest, [(Z.of_nat i, a)], ReturnedNil)
          else
            let '(l', ws, e) := sweep body (S i) rest x' in
            (a :: l', (Z.of_nat i, a) :: ws, e)
      end
  end.

(** The error [AddItem] returns for the way its second loop ended, and the
    one [RemoveItem] returns for the way its loop ended. *)
Definition add_error (e : loop_end Stack) : option error :=
  match e with ReturnedNil => None | FellThrough _ => Some ErrCouldNotAdd end.

Definition remove_error (e : loop_end Z) : option error :=
  match e with ReturnedNil => None | FellThrough _ => Some ErrCouldNotRemove end.

(** The calls of the hook for a list of writes, oldest first. *)
Definition notify (fn : hook) (ws : list (Z * Stack)) (w : World) : World :=
  fold_left (fun w p => fn p.1 p.2 w) ws w.

(** The inventory after [inv.slots[slot] = s]. *)
Definition put (inv : Inventory) (slot : nat) (s : Stack) : Inventory :=
  {| slots := <[slot := s]> (slots inv); f := f inv |}.

(** *** The scan of remove, as a relation

    [remove_scan it i r inv w res]: scanning from slot [i] on with running
    remainder [r], in inventory [inv] and world [w], the removal of [it] ends
    in [res].  Empty slots and slots not comparable to [it] are passed over;
    a matching slot is written back shrunk by [r], then [r] goes down by the
    quantity the slot had; the scan succeeds once [r <= 0], and it fails
    when the slots are exhausted with [r] still positive.  The arithmetic is
    that of the integers. *)
Inductive remove_scan (it : Stack)
  : nat -> Z -> Inventory -> World -> option error * Inventory * World -> Prop :=
| scan_exhausted i r inv w :
    i = length (slots inv) -> 0 < r ->
    remove_scan it i r inv w (Some ErrCouldNotRemove, inv, w)
| scan_skip_empty i r inv w s res :
    slots inv !! i = Some s -> item.Empty s = true ->
    remove_scan it (S i) r inv w res ->
    remove_scan it i r inv w res
| scan_skip_other i r inv w s res :
    slots inv !! i = Some s -> item.Empty s = false -> item.Comparable s it = false ->
    remove_scan it (S i) r inv w res ->
    remove_scan it i r inv w res
| scan_match_done i r inv w s :
    slots inv !! i = Some s -> item.Empty s = false -> item.Comparable s it = true ->
    r - item.Count s <= 0 ->
    remove_scan it i r inv w
      (None, put inv i (item.Grow s (- r)), f inv (Z.of_nat i) (item.Grow s (- r)) w)
| scan_match_more i r inv w s res :
    slots inv !! i = Some s -> item.Empty s = false -> item.Comparable s it = true ->
    0 < r - item.Count s ->
    remove_scan it (S i) (r - item.Count s)
      (put inv i (item.Grow s (- r))) (f inv (Z.of_nat i) (item.Grow s (- r)) w) res ->
    remove_scan it i r inv w res.

(** *** The first loop of add, as a relation

    [existing_pass i r inv w res]: going through the slots from slot [i] on
    with incoming stack [r], in inventory [inv] and world [w], the first
    loop of add ends in [res].  Empty slots are passed over.  At every
    non-empty slot, comparable or not, the slot's stack is combined with the
    incoming one, the filled stack is written back to the slot and notified,
    and the remainder becomes the incoming stack; the loop returns nil at
    the first slot where the remainder is empty, and runs to its end
    otherwise. *)
Inductive existing_pass
  : nat -> Stack -> Inventory -> World -> loop_end Stack * Inventory * World -> Prop :=
| pass_end i r inv w :
    i = length (slots inv) ->
    existing_pass i r inv w (FellThrough r, inv, w)
| pass_skip_empty i r inv w s res :
    slots inv !! i = Some s -> item.Empty s = true ->
    existing_pass (S i) r inv w res ->
    existing_pass i r inv w res
| pass_write_done i r inv w s a b :
    slots inv !! i = Some s -> item.Empty s = false ->
    item.AddStack s r = (a, b) -> item.Empty b = true ->
    existing_pass i r inv w (ReturnedNil, put inv i a, f inv (Z.of_nat i) a w)
| pass_write_more i r inv w s a b res :
    slots inv !! i = Some s -> item.Empty s = false ->
    item.AddStack s r = (a, b) -> item.Empty b = false ->
    existing_pass (S i) b (put inv i a) (f inv (Z.of_nat i) a w) res ->
    existing_pass i r inv w res.

(** The quantity of a stack is a non-negative [int]. *)
Definition int_count (s : Stack) : Prop := 0 <= item.Count s <= go.int_max.

(** A slot that the scan of remove stops at. *)
Definition matches (it s : Stack) : bool :=
  negb (item.Empty s) && item.Comparable s it.

(** The numbers of the non-empty slots among [l], the slots from number [i]
    on, in ascending order. *)
Fixpoint nonempty_from (i : nat) (l : list Stack) : list Z :=
  match l with
  | [] => []
  | s :: rest =>
      if item.Empty s then nonempty_from (S i) rest
      else Z.of_nat i :: nonempty_from (S i) rest
  end.

(** The slots after the writes [ws] (slot number and stack), oldest
    first, each one [slots[slot] = stack]. *)
Definition apply_writes (ws : list (Z * Stack)) (l : list Stack) : list Stack :=
  fold_left (fun l p => <[Z.to_nat p.1 := p.2]> l) ws l.

(** Whether a call is a call of [Close]. *)
Definition is_Close (c : call) : bool :=
  match c with CallClose => true | _ => false end.

End Inventory.
Global Arguments Inventory : clear implicits.
Global Arguments hook : clear implicits.
Global Arguments call : clear implicits.
Global Arguments reply : clear implicits.

(** A hook that keeps the list of the notifications it received, oldest
    first: the world is that list. *)
Definition recorder {Stack : Type} : hook Stack (list (Z * Stack)) :=
  fun slot it log => log ++ [(slot, it)].

End inventory.

(** ** The entity package: the item entity

    The item entity keeps a stack, an age and a pickup delay, next to a
    position and a velocity ([transform], vectors of floats) and a movement
    computer.  The embedding keeps the three integer and stack fields and
    the decisions taken on them.  What the methods do through other
    packages is kept as follows: the NBT round trip of [NewItem] is a
    function parameter; a test on the position, the count a collector
    reports and the number of viewers are arguments of the method that
    reads them; calls on the world and on other entities ([AddEntity],
    [ViewEntityAction], [Close]) are listed, in order, as the effects of the
    method. *)

Module entity.

(** [math.MaxInt16] *)
Definition MaxInt16 : Z := 32767.

Section ItemEntity.
Context {Stack ItemT : Type} {ops : item.StackOps Stack ItemT}.

(** [nbtconv.ItemFromNBT(nbtconv.ItemToNBT(i, false), nil)] *)
Variable nbt_round_trip : Stack -> Stack.

Record Item : Type := { i : Stack; age : Z; pickupDelay : Z }.

Definition NewItem (i : Stack) : Item :=
  let i :=
    if item.MaxCount i <? item.Count i
    then item.Grow i (go.wrap (item.Count i - item.MaxCount i))
    else i in
  let i := nbt_round_trip i in
  {| i := i; age := 0; pickupDelay := 40 |}.

(** [SetPickupDelay], from the value [ticks] of [int(d.Seconds() * 20)]
    on. *)
Definition SetPickupDelay (ticks : Z) (it : Item) : Item :=
  let ticks := if (ticks <? 0) || (MaxInt16 <=? ticks) then MaxInt16 else ticks in
  {| i := i it; age := age it; pickupDelay := ticks |}.

(** What a call of [Tick] came to: the entity was closed, or it went on and
    looked for collectors and stacks nearby ([checkNearby]), or it went on
    without looking. *)
Inductive ticked : Type :=
| Despawned
| Searched
| Waited.

(** [Tick(current)]; [below] is the value of [it.pos[1] < cube.MinY].  The
    movement step changes position and velocity only. *)
Definition Tick (below : bool) (current : Z) (it : Item) : Item * ticked :=
  if below && (Z.rem current 10 =? 0) then (it, Despawned)
  else
    let it := {| i := i it; age := go.wrap (age it + 1); pickupDelay := pickupDelay it |} in
    if 6000 <? age it then (it, Despawned)
    else if pickupDelay it =? 0 then (it, Searched)
    else if negb (pickupDelay it =? MaxInt16)
         then ({| i := i it; age := age it;
                  pickupDelay := go.wrap (pickupDelay it - 1) |}, Waited)
         else (it, Waited).

(** Successive calls of [Tick] on the entity, one for each element of
    [inputs], for as long as the entity is open.  An element gives the
    position test and the tick number of the call, and whether a search has
    closed the entity by the time the call is over and the next one is due:
    the search of the call itself ([collect] after a collector took
    something, or [merge] with another item entity, both of which call
    [it.Close()]), or the search of another item entity whose [merge] took
    this one ([other.Close()]).  The result is the entity, what each call
    made came to, and whether the entity is still open after them. *)
Fixpoint Ticks (inputs : list (bool * Z * bool)) (it : Item) : Item * list ticked * bool :=
  match inputs with
  | [] => (it, [], true)
  | (below, current, closes) :: rest =>
      let '(it1, r) := Tick below current it in
      match r with
      | Despawned => (it1, [Despawned], false)
      | Searched =>
          if closes then (it1, [Searched], false)
          else let '(it2, rs, open) := Ticks rest it1 in (it2, r :: rs, open)
      | Waited =>
          if closes then (it1, [Waited], false)
          else let '(it2, rs, open) := Ticks rest it1 in (it2, r :: rs, open)
      end
  end.

(** The calls a method makes on the world and on entities. *)
Inductive effect : Type :=
| AddEntity (e : Item)
| ViewEntityAction
| CloseIt
| CloseOther.

Definition merge (it other : Item) : bool * list effect :=
  if (item.Count (i other) =? item.MaxCount (i other))
     || (item.Count (i it) =? item.MaxCount (i it))
  then (false, [])
  else if negb (item.Comparable (i it) (i other)) then (false, [])
  else
    let '(a, b) := item.AddStack (i other) (i it) in
    let newA := NewItem a in
    let added_b := if negb (item.Empty b) then [AddEntity (NewItem b)] else [] in
    (true, [AddEntity newA] ++ added_b ++ [CloseIt; CloseOther]).

(** [collect(collector)]; [n] is what [collector.Collect(it.i)] returns and
    [viewers] the number of viewers of the position. *)
Definition collect (n : Z) (viewers : nat) (it : Item) : list effect :=
  if n =? 0 then []
  else
    replicate viewers ViewEntityAction
    ++ (if n =? item.Count (i it) then [CloseIt]
        else [AddEntity (NewItem (item.Grow (i it) (go.wrap (- n)))); CloseIt]).

End ItemEntity.
Global Arguments Item : clear implicits.
Global Arguments effect : clear implicits.

End entity.

(** ** The recipe package *)

Module recipe.

Section Registry.
(** The type [Recipe] is declared elsewhere in the package; the registry
    does not look inside it. *)
Variable Recipe : Type.

(** [var recipes []Recipe]: the package variable, nil when the program
    starts.  The state of the package is its current value. *)
Definition recipes_init : list Recipe := [].

(** [recipes = append(recipes, recipe)] *)
Definition Register (recipe : Recipe) (recipes : list Recipe) : list Recipe :=
  recipes ++ [recipe].

Definition Recipes (recipes : list Recipe) : list Recipe := recipes.

(** Calling [Register] on each element of [rs], first to last. *)
Definition register_all (rs : list Recipe) (recipes : list Recipe) : list Recipe :=
  fold_left (fun st r => Register r st) rs recipes.

End Registry.

End recipe.

(** ** A concrete setting

    Resource identities are strings, every stack holds at most 64 units,
    and the hook records its notifications: the setting of the worked
    scenario "2 slots, max quantity 64 per stack". *)

Module scenario.

Definition max_count (_ : string) : Z := 64.

Definition ops : item.StackOps (item.Stack string) string :=
  item.model_ops "" max_count.

Definition Stack : Type := item.Stack string.
Definition World : Type := list (Z * Stack).
Definition Inventory : Type := inventory.Inventory Stack World.

Definition A (n : Z) : Stack := item.mkStack "A" n.
Definition B (n : Z) : Stack := item.mkStack "B" n.

(** An inventory holding the stacks [l], with the recording hook. *)
Definition holding (l : list Stack) : Inventory :=
  {| inventory.slots := l; inventory.f := inventory.recorder |}.

(** [New(2, record)], where [record] is the recording hook. *)
Definition fresh2 : Inventory := holding [item.zero (StackOps := ops); item.zero (StackOps := ops)].

(** The zero value of [Inventory]. *)
Definition uninitialised : Inventory := inventory.zero_value.

(** An item entity holding the stack [s], of the given age and pickup
    delay; and the NBT round trip taken to give the stack back as it is. *)
Definition item_entity (s : Stack) (age delay : Z) : entity.Item Stack :=
  {| entity.i := s; entity.age := age; entity.pickupDelay := delay |}.

Definition same_stack (s : Stack) : Stack := s.

End scenario.

(** * Properties *)

Import go inventory.

(** Closes side conditions on concrete inventories and integers. *)
Ltac concrete :=
  unfold scenario.fresh2, scenario.uninitialised, scenario.holding, Size, is_int,
    int_min, int_max;
  cbn; repeat split; first [lia | reflexivity | discriminate].

(** ** Integers *)

Lemma wrap_is_int (z : Z) : is_int z -> wrap z = z.
Proof.
  unfold is_int, int_min, int_max, wrap. intros Hz.
  rewrite Z.mod_small; lia.
Qed.

Section Loops.
Context {Stack ItemT : Type} {ops : item.StackOps Stack ItemT} {World : Type}.
Implicit Types (inv : Inventory Stack World) (w : World) (l pre : list Stack).

(** ** The loops of the source are instances of [range_slots] *)

Lemma AddItem_existing_range idxs it inv w :
  AddItem_existing idxs it inv w = range_slots existing_body idxs it inv w.
Proof.
  revert it inv w. induction idxs as [|slot rest IH]; intros it inv w; [done|].
  cbn [AddItem_existing range_slots]. destruct (slots inv !! slot) as [s|]; [|done].
  unfold existing_body. destruct (item.Empty s); [apply IH|].
  destruct (item.AddStack s it) as [a b].
  destruct (setItem inv (Z.of_nat slot) a w) as [[inv' w']|msg]; cbn; [|done].
  destruct (item.Empty b); [done|apply IH].
Qed.

Lemma AddItem_empty_range idxs it inv w :
  AddItem_empty idxs it inv w = range_slots empty_body idxs it inv w.
Proof.
  revert it inv w. induction idxs as [|slot rest IH]; intros it inv w; [done|].
  cbn [AddItem_empty range_slots]. destruct (slots inv !! slot) as [s|]; [|done].
  unfold empty_body. destruct (negb (item.Empty s)); [apply IH|].
  destruct (item.AddStack _ it) as [a b].
  destruct (setItem inv (Z.of_nat slot) a w) as [[inv' w']|msg]; cbn; [|done].
  destruct (item.Empty b); [done|apply IH].
Qed.

Lemma RemoveItem_loop_range idxs it r inv w :
  RemoveItem_loop idxs it r inv w = range_slots (remove_body it) idxs r inv w.
Proof.
  revert r inv w. induction idxs as [|slot rest IH]; intros r inv w; [done|].
  cbn [RemoveItem_loop range_slots]. destruct (slots inv !! slot) as [s|]; [|done].
  unfold remove_body. destruct (item.Empty s); [apply IH|].
  destruct (negb (item.Comparable s it)); [apply IH|].
  destruct (setItem inv (Z.of_nat slot) _ w) as [[inv' w']|msg]; cbn; [|done].
  destruct (_ <=? 0); [done|apply IH].
Qed.

(** ** A loop over the slots, on the slots alone *)

Lemma setItem_middle inv pre s l a w :
  slots inv = pre ++ s :: l ->
  setItem inv (Z.of_nat (length pre)) a w
  = Returned ({| slots := pre ++ a :: l; f := f inv |},
              f inv (Z.of_nat (length pre)) a w).
Proof.
  intros Hs. unfold setItem. rewrite Hs, length_app. cbn [length].
  rewrite (proj2 (Z.leb_le _ _)) by lia.
  rewrite (proj2 (Z.ltb_lt _ _)) by lia. cbn.
  rewrite Nat2Z.id.
  replace (length pre) with (length pre + 0)%nat at 1 by lia.
  by rewrite insert_app_r.
Qed.

Lemma range_slots_sweep {X : Type} (body : Stack -> X -> visit X) l :
  forall pre x inv w,
    slots inv = pre ++ l ->
    range_slots body (seq (length pre) (length l)) x inv w
    = let '(l', ws, e) := sweep body (length pre) l x in
      Returned (e, {| slots := pre ++ l'; f := f inv |}, notify (f inv) ws w).
Proof.
  induction l as [|s rest IH]; intros pre x inv w Hs.
  - cbn. rewrite app_nil_r in *. destruct inv; cbn in *; by subst.
  - cbn [length seq range_slots sweep].
    rewrite Hs, list_lookup_middle by done.
    destruct (body s x) as [|a x' stop].
    + specialize (IH (pre ++ [s]) x inv w).
      rewrite length_app in IH. cbn [length] in IH.
      replace (length pre + 1)%nat with (S (length pre)) in IH by lia.
      rewrite IH by (by rewrite <- app_assoc).
      destruct (sweep body (S (length pre)) rest x) as [[l' ws] e].
      by rewrite <- app_assoc.
    + rewrite (setItem_middle inv pre s rest a w Hs). cbn.
      destruct stop; [done|].
      specialize (IH (pre ++ [a]) x'
                    {| slots := pre ++ a :: rest; f := f inv |}
                    (f inv (Z.of_nat (length pre)) a w)).
      rewrite length_app in IH. cbn [length] in IH.
      replace (length pre + 1)%nat with (S (length pre)) in IH by lia.
      rewrite IH by (cbn; by rewrite <- app_assoc).
      destruct (sweep body (S (length pre)) rest x') as [[l' ws] e].
      cbn. by rewrite <- app_assoc.
Qed.

Lemma sweep_length {X : Type} (body : Stack -> X -> visit X) l :
  forall i x, length (sweep body i l x).1.1 = length l.
Proof.
  induction l as [|s rest IH]; intros i x; [done|].
  cbn [sweep]. destruct (body s x) as [|a x' stop].
  - specialize (IH (S i) x). destruct (sweep body (S i) rest x) as [[l' ws] e].
    cbn in *. by rewrite IH.
  - destruct stop; [done|].
    specialize (IH (S i) x'). destruct (sweep body (S i) rest x') as [[l' ws] e].
    cbn in *. by rewrite IH.
Qed.

(** The whole loop, from slot 0. *)
Lemma range_slots_all {X : Type} (body : Stack -> X -> visit X) x inv w :
  range_slots body (seq 0 (length (slots inv))) x inv w
  = let '(l', ws, e) := sweep body 0 (slots inv) x in
    Returned (e, {| slots := l'; f := f inv |}, notify (f inv) ws w).
Proof. exact (range_slots_sweep body (slots inv) [] x inv w eq_refl). Qed.

End Loops.

(** ** Single slots: [Item], [SetItem], and the guard *)

Section Slots.
Context {Stack ItemT : Type} {ops : item.StackOps Stack ItemT} {World : Type}.
Implicit Types (inv : Inventory Stack World) (w : World) (slot : Z).

Lemma check_initialised inv : 0 < Size inv -> check inv = Returned tt.
Proof.
  intros H. unfold check. destruct (Z.eqb_spec (Size inv) 0); [lia|done].
Qed.

Lemma check_uninitialised inv :
  Size inv = 0 ->
  check inv
  = Panicked "uninitialised inventory: inventory must be constructed using inventory.New()".
Proof. intros H. unfold check. by rewrite H. Qed.

Lemma validSlot_spec inv slot : validSlot inv slot = true <-> 0 <= slot < Size inv.
Proof. unfold validSlot. rewrite andb_true_iff, Z.leb_le, Z.ltb_lt. tauto. Qed.

Lemma validSlot_false inv slot :
  slot < 0 \/ Size inv <= slot -> validSlot inv slot = false.
Proof.
  intros H. destruct (validSlot inv slot) eqn:E; [|done].
  apply validSlot_spec in E. lia.
Qed.

(** C6: for a slot number within [0, Size), [SetItem] stores the stack,
    notifies the hook once with that slot and stack, and returns nil; [Item]
    on the same slot right afterwards returns exactly that stack and nil. *)
Theorem SetItem_then_Item inv w slot (x : Stack) :
  0 <= slot < Size inv ->
  exists inv',
    SetItem inv slot x w = Returned (None, inv', f inv slot x w)
    /\ Item inv' slot = Returned (x, None).
Proof.
  intros Hslot.
  assert (Hlen : (Z.to_nat slot < length (slots inv))%nat) by (unfold Size in Hslot; lia).
  exists {| slots := <[Z.to_nat slot := x]> (slots inv); f := f inv |}. split.
  - unfold SetItem. rewrite check_initialised by lia. cbn.
    rewrite (proj2 (validSlot_spec inv slot)) by done. cbn.
    unfold setItem. fold (Size inv). fold (validSlot inv slot).
    by rewrite (proj2 (validSlot_spec inv slot)).
  - unfold Item. rewrite check_initialised by (unfold Size; cbn; rewrite length_insert; lia).
    cbn. unfold validSlot, Size. cbn. rewrite length_insert.
    rewrite (proj2 (Z.leb_le _ _)) by lia.
    rewrite (proj2 (Z.ltb_lt _ _)) by (unfold Size in Hslot; lia). cbn.
    by rewrite list_lookup_insert_eq.
Qed.

(** C7: on an initialised inventory, for a slot number below 0 or at least
    [Size], [Item] and [SetItem] both return [ErrSlotOutOfRange]; the
    inventory (slots and hook) and the world are the ones before the call, so
    no slot changed and the hook was not called. *)
Theorem slot_out_of_range inv w slot (x : Stack) :
  0 < Size inv ->
  slot < 0 \/ Size inv <= slot ->
  run (CallItem slot) inv w
  = Returned (ReplyItem item.zero (Some ErrSlotOutOfRange), inv, w)
  /\ run (CallSetItem slot x) inv w
     = Returned (ReplyError (Some ErrSlotOutOfRange), inv, w).
Proof.
  intros Hinit Hslot. cbn [run]. unfold Item, SetItem.
  rewrite check_initialised by done. cbn.
  by rewrite validSlot_false.
Qed.

(** C1, as the code has it: [New] panics for a size of 0 or less, and on an
    inventory without slots (such as the zero value) [Item] and [SetItem]
    panic, whatever the slot; [Size] returns 0 there, which is what the
    guard [check] reads. *)
Theorem misuse_panics (size : Z) (fn : option (hook Stack World)) inv w slot (x : Stack) :
  size <= 0 ->
  Size inv = 0 ->
  New size fn = Panicked "inventory size must be at least 1"
  /\ Item inv slot
     = Panicked "uninitialised inventory: inventory must be constructed using inventory.New()"
  /\ SetItem inv slot x w
     = Panicked "uninitialised inventory: inventory must be constructed using inventory.New()"
  /\ run CallSize inv w = Returned (ReplyInt 0, inv, w).
Proof.
  intros Hsize Hinv. repeat split.
  - unfold New. by rewrite (proj2 (Z.leb_le _ _)).
  - unfold Item. by rewrite check_uninitialised.
  - unfold SetItem. by rewrite check_uninitialised.
  - cbn. by rewrite Hinv.
Qed.

End Slots.

Lemma SetItem_then_Item_witness :
  0 <= 1 < Size scenario.fresh2
  /\ exists inv',
      SetItem scenario.fresh2 1 (scenario.A 7) []
      = Returned (None, inv', [(1, scenario.A 7)])
      /\ Item (ops := scenario.ops) inv' 1 = Returned (scenario.A 7, None).
Proof.
  split; [concrete|].
  apply (SetItem_then_Item (ops := scenario.ops) scenario.fresh2 [] 1 (scenario.A 7)).
  concrete.
Defined.

Lemma slot_out_of_range_witness :
  0 < Size scenario.fresh2
  /\ (2 < 0 \/ Size scenario.fresh2 <= 2)
  /\ run (ops := scenario.ops) (CallItem 2) scenario.fresh2 []
  = Returned (ReplyItem (item.zero (StackOps := scenario.ops)) (Some ErrSlotOutOfRange),
              scenario.fresh2, [])
  /\ run (ops := scenario.ops) (CallSetItem 2 (scenario.A 7)) scenario.fresh2 []
     = Returned (ReplyError (Some ErrSlotOutOfRange), scenario.fresh2, []).
Proof.
  split; [concrete|]. split; [right; concrete|].
  apply (slot_out_of_range (ops := scenario.ops) scenario.fresh2 [] 2 (scenario.A 7)).
  - concrete.
  - right. concrete.
Defined.

Lemma misuse_panics_witness :
  0 <= 0
  /\ Size scenario.uninitialised = 0
  /\ New (ops := scenario.ops) (World := scenario.World) 0 None
  = Panicked "inventory size must be at least 1"
  /\ Item (ops := scenario.ops) scenario.uninitialised 0
     = Panicked "uninitialised inventory: inventory must be constructed using inventory.New()"
  /\ SetItem scenario.uninitialised 0 (scenario.A 1) []
     = Panicked "uninitialised inventory: inventory must be constructed using inventory.New()"
  /\ run (ops := scenario.ops) CallSize scenario.uninitialised []
     = Returned (ReplyInt 0, scenario.uninitialised, []).
Proof.
  split; [lia|]. split; [reflexivity|].
  apply (misuse_panics (ops := scenario.ops) 0 None scenario.uninitialised [] 0 (scenario.A 1)).
  - lia.
  - reflexivity.
Defined.

(** C1 as stated fails: on the zero value, [Size] returns 0, [Empty] returns
    true and [Close] returns nil, and [AddItem] and [RemoveItem] return their
    ordinary errors; so it is not the case that every method panics there. *)
Lemma zero_value_not_all_fatal :
  run (ops := scenario.ops) CallSize scenario.uninitialised []
  = Returned (ReplyInt 0, scenario.uninitialised, [])
  /\ run (ops := scenario.ops) CallEmpty scenario.uninitialised []
     = Returned (ReplyBool true, scenario.uninitialised, [])
  /\ (exists inv', run (ops := scenario.ops) CallClose scenario.uninitialised []
                   = Returned (ReplyError None, inv', []))
  /\ run (ops := scenario.ops) (CallAddItem (scenario.A 1)) scenario.uninitialised []
     = Returned (ReplyError (Some ErrCouldNotAdd), scenario.uninitialised, [])
  /\ run (ops := scenario.ops) (CallRemoveItem (scenario.A 1)) scenario.uninitialised []
     = Returned (ReplyError (Some ErrCouldNotRemove), scenario.uninitialised, [])
  /\ ~ (forall c, panics (run (ops := scenario.ops) c scenario.uninitialised [])).
Proof.
  repeat split; try reflexivity.
  - eexists. reflexivity.
  - intros H. exact (H CallSize).
Qed.

(** ** The recipe registry *)

Section RegistryFacts.
Context {Recipe : Type}.

Lemma register_all_app (rs st : list Recipe) :
  recipe.register_all Recipe rs st = st ++ rs.
Proof.
  revert st. induction rs as [|r rs IH]; intros st; cbn.
  - by rewrite app_nil_r.
  - unfold recipe.register_all in IH. rewrite IH. unfold recipe.Register.
    by rewrite <- app_assoc.
Qed.

(** C10: after any sequence of calls to [Register], starting from the
    registry as it is when the program starts, [Recipes] returns exactly the
    registered recipes in the order of the calls; more generally the calls
    add their recipes, in order, behind what the registry held. *)
Theorem Recipes_after_Register (rs st : list Recipe) :
  recipe.Recipes Recipe (recipe.register_all Recipe rs (recipe.recipes_init Recipe)) = rs
  /\ recipe.Recipes Recipe (recipe.register_all Recipe rs st)
     = recipe.Recipes Recipe st ++ rs.
Proof.
  unfold recipe.Recipes, recipe.recipes_init.
  rewrite !register_all_app. done.
Qed.

End RegistryFacts.

(** ** Whole operations, on the slots alone *)

Section Operations.
Context {Stack ItemT : Type} {ops : item.StackOps Stack ItemT} {World : Type}.
Implicit Types (inv : Inventory Stack World) (w : World) (l : list Stack).

Lemma notify_app (fn : hook Stack World) ws1 ws2 w :
  notify fn (ws1 ++ ws2) w = notify fn ws2 (notify fn ws1 w).
Proof. apply fold_left_app. Qed.

Lemma notify_no_op ws w : notify (no_op (Stack := Stack)) ws w = w.
Proof. induction ws as [|p ws IH]; [done|]. cbn. apply IH. Qed.

Lemma notify_recorder ws (log : list (Z * Stack)) :
  notify recorder ws log = log ++ ws.
Proof.
  revert log. induction ws as [|[i s] ws IH]; intros log; cbn.
  - by rewrite app_nil_r.
  - unfold notify in IH. rewrite IH. unfold recorder. by rewrite <- app_assoc.
Qed.

Lemma AddItem_sweep inv it w :
  AddItem inv it w
  = let '(l1, ws1, e1) := sweep existing_body 0 (slots inv) it in
    match e1 with
    | ReturnedNil =>
        Returned (None, {| slots := l1; f := f inv |}, notify (f inv) ws1 w)
    | FellThrough it1 =>
        let '(l2, ws2, e2) := sweep empty_body 0 l1 it1 in
        Returned (add_error e2, {| slots := l2; f := f inv |},
                  notify (f inv) (ws1 ++ ws2) w)
    end.
Proof.
  unfold AddItem. rewrite AddItem_existing_range, range_slots_all.
  destruct (sweep existing_body 0 (slots inv) it) as [[l1 ws1] e1]. cbn.
  destruct e1 as [|it1]; [done|].
  rewrite AddItem_empty_range.
  pose proof (range_slots_all empty_body it1
                {| slots := l1; f := f inv |} (notify (f inv) ws1 w)) as H.
  cbn [slots f] in H. rewrite H.
  destruct (sweep empty_body 0 l1 it1) as [[l2 ws2] e2]. cbn.
  rewrite notify_app. by destruct e2.
Qed.

Lemma RemoveItem_sweep inv it w :
  RemoveItem inv it w
  = let '(l1, ws1, e1) := sweep (remove_body it) 0 (slots inv) (item.Count it) in
    Returned (remove_error e1, {| slots := l1; f := f inv |}, notify (f inv) ws1 w).
Proof.
  unfold RemoveItem. rewrite RemoveItem_loop_range, range_slots_all.
  destruct (sweep (remove_body it) 0 (slots inv) (item.Count it)) as [[l1 ws1] e1]. cbn.
  by destruct e1.
Qed.

(** Every call either panics because the inventory has no slot (only
    [Item] and [SetItem] do), or returns; the reply, the new slots and the
    list of writes notified depend on the slots only, and the number of slots
    stays. *)
Lemma run_frame (c : call Stack) l :
  (exists r l' ws,
      length l' = length l
      /\ forall inv w, slots inv = l ->
           run c inv w
           = Returned (r,
                       {| slots := l';
                          f := match c with CallClose => no_op | _ => f inv end |},
                       notify (f inv) ws w))
  \/ (exists msg, l = [] /\ forall inv w, slots inv = l -> run c inv w = Panicked msg).
Proof.
  destruct c as [slot|slot it|it|it| | |].
  - (* Item *)
    destruct l as [|s0 l0] eqn:El.
    { right. eexists. split; [done|]. intros inv w Hs. cbn [run]. unfold Item.
      rewrite check_uninitialised; [done|]. unfold Size. by rewrite Hs. }
    left. rewrite <- El.
    assert (Hpos : forall inv, slots inv = l -> 0 < Size inv).
    { intros inv Hs. unfold Size. rewrite Hs, El. cbn. lia. }
    destruct (decide (0 <= slot < Z.of_nat (length l))) as [Hin|Hout].
    + destruct (lookup_lt_is_Some_2 l (Z.to_nat slot)) as [s Hs']; [lia|].
      exists (ReplyItem s None), l, []. split; [done|].
      intros inv w Hs. cbn [run]. unfold Item.
      rewrite check_initialised by auto. cbn.
      rewrite (proj2 (validSlot_spec inv slot)) by (unfold Size; by rewrite Hs).
      cbn. rewrite Hs, Hs'. cbn. destruct inv; cbn in *; by subst.
    + exists (ReplyItem item.zero (Some ErrSlotOutOfRange)), l, []. split; [done|].
      intros inv w Hs. cbn [run]. unfold Item.
      rewrite check_initialised by auto. cbn.
      rewrite validSlot_false by (unfold Size; rewrite Hs; lia).
      cbn. destruct inv; cbn in *; by subst.
  - (* SetItem *)
    destruct l as [|s0 l0] eqn:El.
    { right. eexists. split; [done|]. intros inv w Hs. cbn [run]. unfold SetItem.
      rewrite check_uninitialised; [done|]. unfold Size. by rewrite Hs. }
    left. rewrite <- El.
    assert (Hpos : forall inv, slots inv = l -> 0 < Size inv).
    { intros inv Hs. unfold Size. rewrite Hs, El. cbn. lia. }
    destruct (decide (0 <= slot < Z.of_nat (length l))) as [Hin|Hout].
    + exists (ReplyError None), (<[Z.to_nat slot := it]> l), [(slot, it)].
      split; [apply length_insert|].
      intros inv w Hs. cbn [run]. unfold SetItem.
      rewrite check_initialised by auto. cbn.
      rewrite (proj2 (validSlot_spec inv slot)) by (unfold Size; by rewrite Hs).
      cbn. unfold setItem. rewrite Hs.
      rewrite (proj2 (Z.leb_le _ _)) by lia.
      rewrite (proj2 (Z.ltb_lt _ _)) by lia. done.
    + exists (ReplyError (Some ErrSlotOutOfRange)), l, []. split; [done|].
      intros inv w Hs. cbn [run]. unfold SetItem.
      rewrite check_initialised by auto. cbn.
      rewrite validSlot_false by (unfold Size; rewrite Hs; lia).
      cbn. destruct inv; cbn in *; by subst.
  - (* AddItem *)
    left.
    pose proof (sweep_length existing_body l 0 it) as Hlen1.
    destruct (sweep existing_body 0 l it) as [[l1 ws1] e1] eqn:E1. cbn in Hlen1.
    destruct e1 as [|it1].
    + exists (ReplyError None), l1, ws1. split; [done|].
      intros inv w Hs. cbn [run]. rewrite AddItem_sweep, Hs, E1. done.
    + pose proof (sweep_length empty_body l1 0 it1) as Hlen2.
      destruct (sweep empty_body 0 l1 it1) as [[l2 ws2] e2] eqn:E2. cbn in Hlen2.
      exists (ReplyError (add_error e2)), l2, (ws1 ++ ws2). split; [congruence|].
      intros inv w Hs. cbn [run]. rewrite AddItem_sweep, Hs, E1, E2. done.
  - (* RemoveItem *)
    left.
    pose proof (sweep_length (remove_body it) l 0 (item.Count it)) as Hlen1.
    destruct (sweep (remove_body it) 0 l (item.Count it)) as [[l1 ws1] e1] eqn:E1.
    cbn in Hlen1.
    eexists (ReplyError _), l1, ws1. split; [done|].
    intros inv w Hs. cbn [run]. rewrite RemoveItem_sweep, Hs, E1. done.
  - left. exists (ReplyBool (Empty_loop l)), l, []. split; [done|].
    intros inv w Hs. cbn. unfold Empty. rewrite Hs. destruct inv; cbn in *; by subst.
  - left. exists (ReplyInt (Z.of_nat (length l))), l, []. split; [done|].
    intros inv w Hs. cbn. unfold Size. rewrite Hs. destruct inv; cbn in *; by subst.
  - left. exists (ReplyError None), l, []. split; [done|].
    intros inv w Hs. cbn. by rewrite Hs.
Qed.

End Operations.

(** ** Sequences of calls: the size, and the closed inventory *)

Section Lifetime.
Context {Stack ItemT : Type} {ops : item.StackOps Stack ItemT} {World : Type}.
Implicit Types (inv : Inventory Stack World) (w : World) (cs : list (call Stack)).

Lemma run_all_Size cs :
  forall inv w,
    0 < Size inv ->
    exists rs inv' w',
      run_all cs inv w = Returned (rs, inv', w') /\ Size inv' = Size inv.
Proof.
  induction cs as [|c cs IH]; intros inv w Hpos.
  - by exists [], inv, w.
  - cbn [run_all].
    destruct (run_frame (World := World) c (slots inv)) as [(r & l' & ws & Hlen & Hrun)|(msg & Hnil & _)].
    + rewrite (Hrun inv w eq_refl). cbn.
      set (inv1 := {| slots := l'; f := _ |}).
      assert (Hsize : Size inv1 = Size inv) by (unfold Size; cbn; by rewrite Hlen).
      destruct (IH inv1 (notify (f inv) ws w)) as (rs & inv' & w' & Hrest & Hsz); [lia|].
      rewrite Hrest. cbn. exists (r :: rs), inv', w'. split; [done|lia].
    + unfold Size in Hpos. rewrite Hnil in Hpos. cbn in Hpos. lia.
Qed.

(** C8: an inventory made by [New] with a positive size reports that size,
    and after any sequence of calls of the public methods (none of which
    panics) [Size] still returns it. *)
Theorem Size_constant (size : Z) (fn : option (hook Stack World)) cs w :
  0 < size ->
  exists inv,
    New size fn = Returned inv
    /\ Size inv = size
    /\ exists rs inv' w',
        run_all cs inv w = Returned (rs, inv', w')
        /\ run CallSize inv' w' = Returned (ReplyInt size, inv', w').
Proof.
  intros Hsize. unfold New.
  destruct (Z.leb_spec size 0) as [|_]; [lia|].
  eexists. split; [done|].
  set (inv := {| slots := _; f := _ |}).
  assert (Hs : Size inv = size).
  { unfold Size, inv. cbn. rewrite length_replicate. lia. }
  split; [done|].
  destruct (run_all_Size cs inv w) as (rs & inv' & w' & Hrun & Hsz); [lia|].
  exists rs, inv', w'. split; [done|]. cbn. by rewrite Hsz, Hs.
Qed.

(** Two inventories with the same slots, the second one with the no-op
    hook, answer every sequence of calls alike, and the second leaves the
    world alone. *)
Lemma run_all_silent cs :
  forall inv1 inv2 w1 w2,
    slots inv1 = slots inv2 ->
    f inv2 = no_op ->
    match run_all cs inv1 w1, run_all cs inv2 w2 with
    | Returned (rs1, inv1', _), Returned (rs2, inv2', w2') =>
        rs2 = rs1 /\ slots inv2' = slots inv1' /\ f inv2' = no_op /\ w2' = w2
    | Panicked m1, Panicked m2 => m2 = m1
    | _, _ => False
    end.
Proof.
  induction cs as [|c cs IH]; intros inv1 inv2 w1 w2 Hs Hf.
  - cbn. auto.
  - cbn [run_all].
    destruct (run_frame (World := World) c (slots inv1)) as [(r & l' & ws & Hlen & Hrun)|(msg & Hnil & Hrun)].
    + rewrite (Hrun inv1 w1 eq_refl), (Hrun inv2 w2 (eq_sym Hs)). cbn.
      rewrite Hf, notify_no_op.
      set (inv1' := {| slots := l'; f := match c with CallClose => _ | _ => f inv1 end |}).
      set (inv2' := {| slots := l'; f := match c with CallClose => _ | _ => no_op end |}).
      specialize (IH inv1' inv2' (notify (f inv1) ws w1) w2 eq_refl).
      destruct (run_all cs inv1' _) as [[[rs1 i1] w1']|m1],
               (run_all cs inv2' w2) as [[[rs2 i2] w2']|m2]; cbn.
      * destruct IH as (-> & ? & ? & ?); [by destruct c|]. auto.
      * apply IH. by destruct c.
      * apply IH. by destruct c.
      * apply IH. by destruct c.
    + rewrite (Hrun inv1 w1 eq_refl), (Hrun inv2 w2 (eq_sym Hs)). done.
Qed.

(** C9: [Close] returns nil and changes nothing but the hook, which becomes
    the no-op; closing again returns nil and yields the same inventory; and
    the closed inventory answers every sequence of calls with the same
    replies and the same slot contents as the open one does, without
    touching the world. *)
Theorem Close_detaches_only inv w cs :
  let closed := {| slots := slots inv; f := no_op |} in
  Close inv w = Returned (None, closed, w)
  /\ Close closed w = Returned (None, closed, w)
  /\ match run_all cs inv w, run_all cs closed w with
     | Returned (rs, inv', _), Returned (rs', inv'', w'') =>
         rs' = rs /\ slots inv'' = slots inv' /\ f inv'' = no_op /\ w'' = w
     | Panicked m, Panicked m' => m' = m
     | _, _ => False
     end.
Proof.
  cbn. repeat split. by apply run_all_silent.
Qed.

End Lifetime.

Lemma Size_constant_witness :
  0 < 2
  /\ exists inv,
      New (ops := scenario.ops) 2 (Some recorder) = Returned inv
      /\ Size inv = 2
      /\ exists rs inv' w',
          run_all (ops := scenario.ops)
            [CallAddItem (scenario.A 40); CallRemoveItem (scenario.A 50); CallClose] inv []
          = Returned (rs, inv', w')
          /\ run (ops := scenario.ops) CallSize inv' w' = Returned (ReplyInt 2, inv', w').
Proof.
  split; [lia|].
  apply (Size_constant (ops := scenario.ops) 2 (Some recorder)). lia.
Defined.

(** ** The scan of [RemoveItem] *)

Section Remove.
Context {Stack ItemT : Type} {ops : item.StackOps Stack ItemT} {World : Type}.
Implicit Types (inv : Inventory Stack World) (w : World) (it : Stack).

Lemma setItem_put inv (i : nat) (s a : Stack) w :
  slots inv !! i = Some s ->
  setItem inv (Z.of_nat i) a w = Returned (put inv i a, f inv (Z.of_nat i) a w).
Proof.
  intros Hs. apply lookup_lt_Some in Hs. unfold setItem, put.
  rewrite (proj2 (Z.leb_le _ _)) by lia.
  rewrite (proj2 (Z.ltb_lt _ _)) by lia. cbn.
  by rewrite Nat2Z.id.
Qed.

Lemma RemoveItem_loop_scan it (k : nat) :
  forall (i : nat) r inv w,
    (i + k)%nat = length (slots inv) ->
    0 <= r <= int_max ->
    (forall j s, (i <= j)%nat -> slots inv !! j = Some s -> int_count s) ->
    exists e inv' w',
      RemoveItem_loop (seq i k) it r inv w = Returned (e, inv', w')
      /\ (remove_scan it i r inv w (remove_error e, inv', w')
          \/ (r = 0
              /\ (forall j s, (i <= j)%nat -> slots inv !! j = Some s -> matches it s = false)
              /\ e = FellThrough r /\ inv' = inv /\ w' = w)).
Proof.
  induction k as [|k IH]; intros i r inv w Hlen Hr Hcounts.
  - exists (FellThrough r), inv, w. split; [done|].
    destruct (decide (0 < r)) as [Hpos|Hzero].
    + left. cbn. apply scan_exhausted; [lia|done].
    + right. repeat split; [lia|].
      intros j s Hj Hs. apply lookup_lt_Some in Hs. lia.
  - cbn [seq RemoveItem_loop].
    destruct (lookup_lt_is_Some_2 (slots inv) i) as [s Hs]; [lia|].
    rewrite Hs.
    destruct (item.Empty s) eqn:Hempty.
    { destruct (IH (S i) r inv w) as (e & inv' & w' & Hrun & Hres);
        [lia|done|intros j s' Hj; apply Hcounts; lia|].
      exists e, inv', w'. split; [done|].
      destruct Hres as [Hscan|(Hr0 & Hnone & He & Hinv & Hw)].
      - left. by eapply scan_skip_empty.
      - right. repeat split; try done.
        intros j s' Hj Hs'. destruct (decide (j = i)) as [->|Hne].
        + rewrite Hs in Hs'. injection Hs' as <-. unfold matches. by rewrite Hempty.
        + eapply Hnone; [|done]. lia. }
    destruct (item.Comparable s it) eqn:Hcmp; cbn [negb].
    2:{ destruct (IH (S i) r inv w) as (e & inv' & w' & Hrun & Hres);
          [lia|done|intros j s' Hj; apply Hcounts; lia|].
        exists e, inv', w'. split; [done|].
        destruct Hres as [Hscan|(Hr0 & Hnone & He & Hinv & Hw)].
        - left. by eapply scan_skip_other.
        - right. repeat split; try done.
          intros j s' Hj Hs'. destruct (decide (j = i)) as [->|Hne].
          + rewrite Hs in Hs'. injection Hs' as <-. unfold matches.
            by rewrite Hcmp, andb_false_r.
          + eapply Hnone; [|done]. lia. }
    pose proof (Hcounts i s (le_n i) Hs) as Hc. unfold int_count in Hc.
    rewrite (setItem_put inv i s _ w Hs). cbn.
    rewrite (wrap_is_int (- r)) by (unfold is_int, int_min, int_max in *; lia).
    rewrite (wrap_is_int (r - item.Count s))
      by (unfold is_int, int_min, int_max in *; lia).
    destruct (Z.leb_spec (r - item.Count s) 0) as [Hdone|Hmore].
    + eexists ReturnedNil, _, _. split; [done|]. left. cbn.
      by apply scan_match_done.
    + destruct (IH (S i) (r - item.Count s) (put inv i (item.Grow s (- r)))
                  (f inv (Z.of_nat i) (item.Grow s (- r)) w))
        as (e & inv' & w' & Hrun & Hres).
      * cbn. rewrite length_insert. lia.
      * lia.
      * intros j s' Hj Hs'. cbn in Hs'.
        rewrite list_lookup_insert_ne in Hs' by lia. eapply Hcounts; [|done]. lia.
      * exists e, inv', w'. split; [done|].
        destruct Hres as [Hscan|(Hr0 & _)]; [|lia].
        left. by eapply scan_match_more.
Qed.

(** The relation leaves no choice: a scan has at most one result. *)
Lemma remove_scan_deterministic it i r inv w res1 res2 :
  remove_scan it i r inv w res1 -> remove_scan it i r inv w res2 -> res1 = res2.
Proof.
  intros H1. revert res2.
  induction H1 as [i r inv w Hi Hr
                  |i r inv w s res Hs He _ IH
                  |i r inv w s res Hs He Hc _ IH
                  |i r inv w s Hs He Hc Hr
                  |i r inv w s res Hs He Hc Hr _ IH];
    intros res2 H2; inversion H2; subst;
    try match goal with
        | Ha : slots ?v !! ?j = Some ?a, Hb : slots ?v !! ?j = Some ?b |- _ =>
            rewrite Ha in Hb; injection Hb as <-
        end;
    try congruence; try lia; try (by apply IH);
    try match goal with
        | Hl : slots ?v !! length (slots ?v) = Some _ |- _ =>
            apply lookup_lt_Some in Hl; lia
        end.
Qed.

(** With quantities that are non-negative [int]s, [RemoveItem] returns,
    and what it returns is what the scan of [remove_scan] yields from slot 0
    with the requested quantity as running remainder: slots in ascending
    order, empty and non-comparable ones passed over, each matching slot
    written back shrunk by the remainder and the remainder then lowered by
    the quantity the slot had, success as soon as the remainder is [<= 0],
    the error once the slots are exhausted with a positive remainder.  The
    one case outside that relation is a request for quantity 0 when no slot
    matches: nothing is written and the error is returned. *)
Theorem RemoveItem_scans inv it w :
  int_count it ->
  Forall int_count (slots inv) ->
  exists res,
    RemoveItem inv it w = Returned res
    /\ (remove_scan it 0 (item.Count it) inv w res
        \/ (item.Count it = 0
            /\ Forall (fun s => matches it s = false) (slots inv)
            /\ res = (Some ErrCouldNotRemove, inv, w))).
Proof.
  intros Hit Hslots. unfold RemoveItem.
  destruct (RemoveItem_loop_scan it (length (slots inv)) 0 (item.Count it) inv w)
    as (e & inv' & w' & Hrun & Hres); [done|done| |].
  { intros j s _ Hs. rewrite Forall_forall in Hslots. apply Hslots.
    eapply list_elem_of_lookup_2, Hs. }
  rewrite Hrun. cbn.
  exists (remove_error e, inv', w'). split; [by destruct e|].
  destruct Hres as [Hscan|(Hr0 & Hnone & -> & -> & ->)]; [by left|].
  right. repeat split; [done|].
  apply Forall_forall. intros s Hin.
  apply list_elem_of_lookup in Hin as [j Hj].
  eapply Hnone; [|done]. lia.
Qed.

End Remove.

Lemma RemoveItem_scans_witness :
  int_count (ops := scenario.ops) (scenario.A 50)
  /\ Forall (int_count (ops := scenario.ops))
       (slots (scenario.holding [scenario.A 64; scenario.A 6]))
  /\ exists res,
      RemoveItem (ops := scenario.ops)
        (scenario.holding [scenario.A 64; scenario.A 6]) (scenario.A 50) []
      = Returned res
      /\ (remove_scan (ops := scenario.ops) (scenario.A 50) 0 50
            (scenario.holding [scenario.A 64; scenario.A 6]) [] res
          \/ (50 = 0
              /\ Forall (fun s => matches (ops := scenario.ops) (scenario.A 50) s = false)
                   (slots (scenario.holding [scenario.A 64; scenario.A 6]))
              /\ res = (Some ErrCouldNotRemove,
                        scenario.holding [scenario.A 64; scenario.A 6], []))).
Proof.
  assert (H1 : int_count (ops := scenario.ops) (scenario.A 50)) by (unfold int_count; concrete).
  assert (H2 : Forall (int_count (ops := scenario.ops))
                 (slots (scenario.holding [scenario.A 64; scenario.A 6]))).
  { repeat constructor; unfold int_count; concrete. }
  split; [exact H1|]. split; [exact H2|].
  exact (RemoveItem_scans (ops := scenario.ops)
           (scenario.holding [scenario.A 64; scenario.A 6]) (scenario.A 50) [] H1 H2).
Defined.

(** C3 fails for a request of quantity 0 that no slot matches.  On the
    inventory [New(2, record)] the running remainder of [RemoveItem] of zero
    units of ["A"] starts at 0, which is [<= 0], and both slots are empty:
    the test [toRemove <= 0] sits behind the two [continue]s and is never
    reached, the loop runs out and [RemoveItem] returns its error, with a
    remainder that is not positive.  The scan as the claim words it has no
    result here: it succeeds once the remainder is [<= 0] and fails only
    with a positive one. *)
Theorem RemoveItem_nothing_asked :
  item.Count (StackOps := scenario.ops) (scenario.A 0) = 0
  /\ RemoveItem (ops := scenario.ops) scenario.fresh2 (scenario.A 0) []
     = Returned (Some ErrCouldNotRemove, scenario.fresh2, [])
  /\ ~ (exists res,
          remove_scan (ops := scenario.ops) (scenario.A 0) 0
            (item.Count (StackOps := scenario.ops) (scenario.A 0)) scenario.fresh2 [] res).
Proof.
  split; [reflexivity|]. split; [reflexivity|].
  intros [res Hscan].
  inversion Hscan as [? ? ? ? Hlen| ? ? ? ? s0 ? Hs0 He0 Hscan1| ? ? ? ? s0 ? Hs0 He0
                     | ? ? ? ? s0 Hs0 He0 | ? ? ? ? s0 ? Hs0 He0]; subst;
    try (cbn in Hs0; injection Hs0 as <-; discriminate He0);
    [cbn in Hlen; discriminate Hlen|].
  inversion Hscan1 as [? ? ? ? Hlen| ? ? ? ? s1 ? Hs1 He1 Hscan2| ? ? ? ? s1 ? Hs1 He1
                      | ? ? ? ? s1 Hs1 He1 | ? ? ? ? s1 ? Hs1 He1]; subst;
    try (cbn in Hs1; injection Hs1 as <-; discriminate He1);
    [cbn in Hlen; discriminate Hlen|].
  inversion Hscan2 as [? ? ? ? Hlen Hpos| ? ? ? ? s2 ? Hs2| ? ? ? ? s2 ? Hs2
                      | ? ? ? ? s2 Hs2 | ? ? ? ? s2 ? Hs2]; subst;
    try (cbn in Hs2; discriminate Hs2).
  cbn in Hpos. lia.
Qed.

(** The worked scenario: two slots, at most 64 per stack.  [add(A,40)],
    [add(A,30)], [add(B,10)], [remove(A,50)]: the third call fails, the
    others succeed, and the slots end as [A:14] and [A:6]. *)
Example scenario_two_slots :
  exists w,
    run_all (ops := scenario.ops)
      [CallAddItem (scenario.A 40); CallAddItem (scenario.A 30);
       CallAddItem (scenario.B 10); CallRemoveItem (scenario.A 50)]
      scenario.fresh2 []
    = Returned ([ReplyError None; ReplyError None; ReplyError (Some ErrCouldNotAdd);
                 ReplyError None],
                scenario.holding [scenario.A 14; scenario.A 6], w).
Proof. eexists. reflexivity. Qed.

(** ** Adding and removing, on the stack of the capability description *)

Section OnModel.
Context {Id : Type} {Id_eq_dec : EqDecision Id}.
Variable nil : Id.
Variable max_count : Id -> Z.
Context {World : Type}.
Local Abbreviation mops := (item.model_ops nil max_count).
Local Abbreviation Stack := (item.Stack Id).
Implicit Types (inv : Inventory Stack World) (w : World) (l : list Stack) (it s : Stack).

Lemma sweep_existing_all_empty i l it :
  Empty_loop (ops := mops) l = true ->
  sweep (existing_body (ops := mops)) i l it = (l, [], FellThrough it).
Proof.
  revert i. induction l as [|s rest IH]; intros i Hl; [done|].
  cbn [Empty_loop] in Hl. cbn [sweep]. unfold existing_body.
  destruct (item.Empty (StackOps := mops) s); cbn in Hl; [|done].
  by rewrite IH.
Qed.

Lemma Empty_loop_cons s l :
  Empty_loop (ops := mops) (s :: l)
  = item.Empty (StackOps := mops) s && Empty_loop (ops := mops) l.
Proof. cbn. by destruct (item.model_Empty s). Qed.

(** What the stack operations give on the stacks met in a round trip. *)
Lemma Empty_count s : item.Empty (StackOps := mops) s = (item.count s =? 0).
Proof. done. Qed.

Lemma Comparable_item s s2 :
  item.Comparable (StackOps := mops) s s2 = bool_decide (item.item s = item.item s2).
Proof. done. Qed.

Lemma NewStack_nonneg id q :
  0 <= q -> item.NewStack (StackOps := mops) id q = item.mkStack id q.
Proof. intros Hq. cbn. unfold item.model_NewStack. f_equal. lia. Qed.

Lemma AddStack_comparable s s2 :
  item.item s = item.item s2 ->
  item.AddStack (StackOps := mops) s s2
  = let diff := Z.max 0 (Z.min (max_count (item.item s) - item.count s) (item.count s2)) in
    (item.mkStack (item.item s) (item.count s + diff),
     item.mkStack (item.item s2) (item.count s2 - diff)).
Proof.
  intros Heq. cbn. unfold item.model_AddStack, item.model_Comparable.
  by rewrite bool_decide_true.
Qed.

Lemma AddStack_incomparable s s2 :
  item.Comparable (StackOps := mops) s s2 = false ->
  item.AddStack (StackOps := mops) s s2 = (s, s2).
Proof.
  intros Hne. cbn in *. unfold item.model_AddStack. by rewrite Hne.
Qed.

Lemma AddStack_fresh id q :
  0 <= q <= max_count id ->
  item.AddStack (StackOps := mops)
    (item.NewStack (StackOps := mops)
       (item.Item (StackOps := mops) (item.mkStack id q)) 0) (item.mkStack id q)
  = (item.mkStack id q, item.mkStack id 0).
Proof.
  intros Hq. rewrite NewStack_nonneg by lia. rewrite AddStack_comparable by done.
  cbn. f_equal; f_equal; lia.
Qed.

Lemma Grow_count s n :
  item.Grow (StackOps := mops) s n = item.mkStack (item.item s) (Z.max 0 (item.count s + n)).
Proof. done. Qed.

(** X11: The round trip for a positive quantity: on an inventory that has a slot
    and is empty, adding [q] units of [id], with [1 <= q] no more than a
    stack can hold, and then removing them both return nil and leave the
    inventory empty again. *)
Lemma round_trip_positive id q inv w :
  0 < Size inv ->
  Empty (ops := mops) inv = true ->
  1 <= q <= max_count id ->
  q <= int_max ->
  exists inv1 w1 inv2 w2,
    AddItem (ops := mops) inv (item.NewStack (StackOps := mops) id q) w
    = Returned (None, inv1, w1)
    /\ RemoveItem (ops := mops) inv1 (item.NewStack (StackOps := mops) id q) w1
       = Returned (None, inv2, w2)
    /\ Empty (ops := mops) inv2 = true.
Proof.
  intros Hsize Hempty Hq Hmax.
  destruct inv as [l fn]. unfold Size, Empty in *. cbn [slots] in *.
  destruct l as [|s rest]; [cbn in Hsize; lia|].
  rewrite Empty_loop_cons in Hempty. apply andb_true_iff in Hempty as [Hs Hrest].
  rewrite NewStack_nonneg by lia.
  exists {| slots := item.mkStack id q :: rest; f := fn |}, (fn 0 (item.mkStack id q) w),
    {| slots := item.mkStack id 0 :: rest; f := fn |},
    (fn 0 (item.mkStack id 0) (fn 0 (item.mkStack id q) w)).
  split; [|split].
  - rewrite AddItem_sweep. cbn [slots f].
    rewrite sweep_existing_all_empty
      by (rewrite Empty_loop_cons; by apply andb_true_iff).
    cbn [sweep]. unfold empty_body. rewrite Hs. cbn [negb].
    rewrite AddStack_fresh by lia.
    rewrite (Empty_count (item.mkStack id 0)). cbn [item.count Z.eqb]. done.
  - rewrite RemoveItem_sweep. cbn [slots f sweep]. unfold remove_body.
    rewrite (Empty_count (item.mkStack id q)). cbn [item.count].
    destruct (Z.eqb_spec q 0) as [|_]; [lia|].
    rewrite Comparable_item, bool_decide_true by done. cbn [negb].
    change (item.Count (StackOps := mops) (item.mkStack id q)) with q.
    rewrite (wrap_is_int (q - q)) by (unfold is_int, int_min, int_max; lia).
    rewrite (wrap_is_int (- q)) by (unfold is_int, int_min, int_max in *; lia).
    rewrite Grow_count. cbn [item.item item.count].
    replace (q - q) with 0 by lia. replace (Z.max 0 (q + - q)) with 0 by lia.
    done.
  - unfold Empty. cbn [slots]. by rewrite Empty_loop_cons, Hrest.
Qed.

End OnModel.

(** C4 fails for the quantity 0.  On the inventory [New(2, record)], which
    is empty, [AddItem] of zero units of ["A"] returns nil and the inventory
    is still empty, but [RemoveItem] of the same stack returns the error
    "could not remove all items from the inventory". *)
Theorem round_trip_zero_quantity :
  New (ops := scenario.ops) 2 (Some recorder) = Returned scenario.fresh2
  /\ run_all (ops := scenario.ops)
       [CallEmpty;
        CallAddItem (item.NewStack (StackOps := scenario.ops) "A" 0);
        CallEmpty;
        CallRemoveItem (item.NewStack (StackOps := scenario.ops) "A" 0);
        CallEmpty]
       scenario.fresh2 []
     = Returned ([ReplyBool true; ReplyError None; ReplyBool true;
                  ReplyError (Some ErrCouldNotRemove); ReplyBool true],
                 scenario.holding [scenario.A 0; item.zero (StackOps := scenario.ops)],
                 [(0, scenario.A 0)]).
Proof. split; reflexivity. Qed.

Lemma round_trip_positive_example :
  exists inv1 w1 inv2 w2,
    AddItem (ops := scenario.ops) scenario.fresh2
      (item.NewStack (StackOps := scenario.ops) "A" 64) []
    = Returned (None, inv1, w1)
    /\ RemoveItem (ops := scenario.ops) inv1
         (item.NewStack (StackOps := scenario.ops) "A" 64) w1
       = Returned (None, inv2, w2)
    /\ Empty (ops := scenario.ops) inv2 = true.
Proof.
  apply (round_trip_positive "" scenario.max_count "A" 64 scenario.fresh2 []);
    concrete.
Defined.

(** ** A failed [AddItem] *)

Section AddFailure.
Context {Id : Type} {Id_eq_dec : EqDecision Id}.
Variable nil : Id.
Variable max_count : Id -> Z.
Context {World : Type}.
Local Abbreviation mops := (item.model_ops nil max_count).
Local Abbreviation Stack := (item.Stack Id).
Implicit Types (inv : Inventory Stack World) (w : World) (l : list Stack) (it s : Stack).

Lemma topped_existing_item it it' s :
  item.item it' = item.item it ->
  item.topped_existing max_count it' s = item.topped_existing max_count it s.
Proof.
  intros Heq. unfold item.topped_existing, item.model_Comparable. by rewrite Heq.
Qed.

Lemma filled_empty_item it it' s :
  item.item it' = item.item it ->
  item.filled_empty max_count it' s = item.filled_empty max_count it s.
Proof.
  intros Heq. unfold item.filled_empty, item.model_MaxCount. by rewrite Heq.
Qed.

(** The bodies of the two loops, on these stacks. *)
Lemma existing_body_model s it :
  existing_body (ops := mops) s it
  = if item.count s =? 0 then Skip
    else if bool_decide (item.item s = item.item it) then
      let diff := Z.max 0 (Z.min (max_count (item.item s) - item.count s) (item.count it)) in
      Write (item.mkStack (item.item s) (item.count s + diff))
            (item.mkStack (item.item it) (item.count it - diff))
            (item.count it - diff =? 0)
    else Write s it (item.count it =? 0).
Proof.
  unfold existing_body. rewrite (Empty_count nil max_count).
  destruct (item.count s =? 0); [done|].
  destruct (bool_decide (item.item s = item.item it)) eqn:Hcmp.
  - rewrite (AddStack_comparable nil max_count) by (by apply bool_decide_eq_true in Hcmp).
    done.
  - by rewrite (AddStack_incomparable nil max_count).
Qed.

Lemma empty_body_model s it :
  0 <= item.count it ->
  empty_body (ops := mops) s it
  = if negb (item.count s =? 0) then Skip
    else
      let diff := Z.max 0 (Z.min (max_count (item.item it)) (item.count it)) in
      Write (item.mkStack (item.item it) diff)
            (item.mkStack (item.item it) (item.count it - diff))
            (item.count it - diff =? 0).
Proof.
  intros Hit. unfold empty_body. rewrite (Empty_count nil max_count).
  destruct (item.count s =? 0); [|done]. cbn [negb].
  rewrite (NewStack_nonneg nil max_count) by lia.
  rewrite (AddStack_comparable nil max_count) by done.
  cbn. by rewrite Z.sub_0_r.
Qed.

(** The first loop, when it runs to its end: every non-empty stack
    comparable to the incoming one is at its maximum (or beyond), and the
    remainder has the identity of the incoming stack. *)
Lemma sweep_existing_fell l :
  forall i it l1 ws1 it1,
    0 <= item.count it ->
    sweep (existing_body (ops := mops)) i l it = (l1, ws1, FellThrough it1) ->
    item.item it1 = item.item it
    /\ 0 <= item.count it1
    /\ l1 = map (item.topped_existing max_count it) l.
Proof.
  induction l as [|s rest IH]; intros i it l1 ws1 it1 Hit Hsweep.
  - cbn in Hsweep. by injection Hsweep as <- <- <-.
  - cbn [sweep] in Hsweep. rewrite existing_body_model in Hsweep.
    cbn [map]. unfold item.topped_existing at 1.
    unfold item.model_Empty, item.model_Comparable.
    destruct (item.count s =? 0) eqn:Hs.
    { destruct (sweep _ (S i) rest it) as [[l' ws] e] eqn:Hrest.
      injection Hsweep as <- <- ->.
      destruct (IH _ _ _ _ _ Hit Hrest) as (? & ? & ->). done. }
    destruct (bool_decide (item.item s = item.item it)) eqn:Hcmp.
    + cbn zeta in Hsweep.
      set (diff := Z.max 0 (Z.min (max_count (item.item s) - item.count s) (item.count it)))
        in Hsweep.
      destruct (Z.eqb_spec (item.count it - diff) 0) as [|Hrem]; [done|].
      destruct (sweep _ (S i) rest _) as [[l' ws] e] eqn:Hrest.
      injection Hsweep as <- <- ->.
      apply IH in Hrest as (Hitem & Hcount & ->); [|cbn; lia].
      cbn in Hitem, Hcount. split; [done|]. split; [done|].
      rewrite (map_ext _ _
                 (fun s' => topped_existing_item it
                              (item.mkStack (item.item it) (item.count it - diff)) s'
                              eq_refl)).
      f_equal. unfold item.model_MaxCount. f_equal. lia.
    + destruct (item.count it =? 0); [done|].
      destruct (sweep _ (S i) rest it) as [[l' ws] e] eqn:Hrest.
      injection Hsweep as <- <- ->.
      destruct (IH _ _ _ _ _ Hit Hrest) as (? & ? & ->). done.
Qed.

(** The second loop, when it runs to its end: every empty slot has received
    a full stack of the incoming identity. *)
Lemma sweep_empty_fell l :
  forall i it l2 ws2 it2,
    0 <= item.count it ->
    sweep (empty_body (ops := mops)) i l it = (l2, ws2, FellThrough it2) ->
    l2 = map (item.filled_empty max_count it) l.
Proof.
  induction l as [|s rest IH]; intros i it l2 ws2 it2 Hit Hsweep.
  - cbn in Hsweep. by injection Hsweep as <- <- <-.
  - cbn [sweep] in Hsweep. rewrite empty_body_model in Hsweep by done.
    cbn [map]. unfold item.filled_empty at 1. unfold item.model_Empty.
    destruct (item.count s =? 0) eqn:Hs; cbn [negb] in Hsweep.
    2:{ destruct (sweep _ (S i) rest it) as [[l' ws] e] eqn:Hrest.
        injection Hsweep as <- <- ->. by rewrite (IH _ _ _ _ _ Hit Hrest). }
    cbn zeta in Hsweep.
    set (diff := Z.max 0 (Z.min (max_count (item.item it)) (item.count it))) in Hsweep.
    destruct (Z.eqb_spec (item.count it - diff) 0) as [|Hrem]; [done|].
    destruct (sweep _ (S i) rest _) as [[l' ws] e] eqn:Hrest.
    injection Hsweep as <- <- ->.
    apply IH in Hrest as ->; [|cbn; lia].
    rewrite (map_ext _ _
               (fun s' => filled_empty_item it
                            (item.mkStack (item.item it) (item.count it - diff)) s'
                            eq_refl)).
    f_equal. unfold item.model_MaxCount. f_equal. lia.
Qed.

Lemma filled_topped it it1 s :
  item.item it1 = item.item it ->
  0 <= item.count s ->
  item.filled_empty max_count it1 (item.topped_existing max_count it s)
  = item.topped_up max_count it s.
Proof.
  intros Heq Hs.
  unfold item.filled_empty, item.topped_existing, item.topped_up,
    item.model_Empty, item.model_MaxCount.
  rewrite Heq.
  destruct (Z.eqb_spec (item.count s) 0) as [H0|Hne].
  - by rewrite (proj2 (Z.eqb_eq _ _) H0).
  - destruct (item.model_Comparable s it); cbn [item.count].
    + destruct (Z.eqb_spec (Z.max (item.count s) (max_count (item.item s))) 0); [lia|done].
    + by destruct (Z.eqb_spec (item.count s) 0).
Qed.

Lemma topped_up_full it s :
  item.accepts it (item.topped_up max_count it s)
  -> item.full max_count (item.topped_up max_count it s).
Proof.
  unfold item.accepts, item.full, item.topped_up, item.model_MaxCount, item.model_Count,
    item.model_Empty.
  destruct (Z.eqb_spec (item.count s) 0) as [H0|Hne]; [cbn; lia|].
  destruct (item.model_Comparable s it) eqn:Hcmp; [cbn; lia|].
  intros [Hempty|Hcmp'].
  - apply Z.eqb_eq in Hempty. lia.
  - congruence.
Qed.

(** C5: when [AddItem] returns its error, with quantities that are not
    negative, the slots are the original ones after the writes of both
    loops, nothing being undone: every empty slot holds a full stack of the
    incoming identity, every non-empty stack comparable to the incoming one
    has been topped up to its maximum, every other stack is as it was.  So
    every slot of the result that could take units of the incoming stack,
    being empty or holding a comparable stack, has no room left. *)
Theorem AddItem_failure_fills inv it w inv' w' :
  0 <= item.count it ->
  Forall (fun s => 0 <= item.count s) (slots inv) ->
  AddItem (ops := mops) inv it w = Returned (Some ErrCouldNotAdd, inv', w') ->
  slots inv' = map (item.topped_up max_count it) (slots inv)
  /\ f inv' = f inv
  /\ Forall (fun s' => item.accepts it s' -> item.full max_count s') (slots inv').
Proof.
  intros Hit Hslots Hadd. rewrite AddItem_sweep in Hadd.
  destruct (sweep existing_body 0 (slots inv) it) as [[l1 ws1] e1] eqn:E1.
  destruct e1 as [|it1]; [done|].
  destruct (sweep empty_body 0 l1 it1) as [[l2 ws2] e2] eqn:E2.
  destruct e2 as [|it2]; [done|]. cbn in Hadd. injection Hadd as <- <-.
  apply sweep_existing_fell in E1 as (Hitem & Hcount & ->); [|done].
  apply sweep_empty_fell in E2 as ->; [|done]. cbn [slots f].
  assert (Hmap : map (item.filled_empty max_count it1) (map (item.topped_existing max_count it) (slots inv))
                 = map (item.topped_up max_count it) (slots inv)).
  { rewrite map_map. apply Forall_fmap_ext_1.
    eapply Forall_impl; [exact Hslots|]. intros s Hs. by apply filled_topped. }
  rewrite Hmap. repeat split.
  apply Forall_forall. intros s' Hin.
  apply list_elem_of_fmap in Hin as (s & -> & _). apply topped_up_full.
Qed.

End AddFailure.

(** ** The first loop of [AddItem], slot by slot *)

Section ExistingPass.
Context {Stack ItemT : Type} {ops : item.StackOps Stack ItemT} {World : Type}.
Implicit Types (inv : Inventory Stack World) (w : World).

Lemma AddItem_existing_passes (k : nat) :
  forall (i : nat) (r : Stack) inv w,
    (i + k)%nat = length (slots inv) ->
    exists res,
      AddItem_existing (seq i k) r inv w = Returned res
      /\ existing_pass i r inv w res.
Proof.
  induction k as [|k IH]; intros i r inv w Hlen.
  - eexists. split; [done|]. apply pass_end. lia.
  - cbn [seq AddItem_existing].
    destruct (lookup_lt_is_Some_2 (slots inv) i) as [s Hs]; [lia|].
    rewrite Hs. destruct (item.Empty s) eqn:Hempty.
    { destruct (IH (S i) r inv w) as (res & Hrun & Hpass); [lia|].
      exists res. split; [done|]. by eapply pass_skip_empty. }
    destruct (item.AddStack s r) as [a b] eqn:Hadd.
    rewrite (setItem_put inv i s a w Hs). cbn.
    destruct (item.Empty b) eqn:Hb.
    + eexists. split; [done|]. by eapply pass_write_done.
    + destruct (IH (S i) b (put inv i a) (f inv (Z.of_nat i) a w))
        as (res & Hrun & Hpass); [cbn; rewrite length_insert; lia|].
      exists res. split; [done|]. by eapply pass_write_more.
Qed.

(** The relation leaves no choice: the first loop has one result. *)
Lemma existing_pass_deterministic (i : nat) (r : Stack) inv w res1 res2 :
  existing_pass i r inv w res1 -> existing_pass i r inv w res2 -> res1 = res2.
Proof.
  intros H1. revert res2.
  induction H1 as [i r inv w Hi
                  |i r inv w s res Hs He _ IH
                  |i r inv w s a b Hs He Ha Hb
                  |i r inv w s a b res Hs He Ha Hb _ IH];
    intros res2 H2; inversion H2; subst;
    try match goal with
        | Hl : slots ?v !! length (slots ?v) = Some _ |- _ =>
            apply lookup_lt_Some in Hl; lia
        end;
    try match goal with
        | Hx : slots ?v !! ?j = Some ?x, Hy : slots ?v !! ?j = Some ?y |- _ =>
            rewrite Hx in Hy; injection Hy as <-
        end;
    try match goal with
        | Hx : item.AddStack ?s ?q = _, Hy : item.AddStack ?s ?q = _ |- _ =>
            rewrite Hx in Hy; injection Hy as <- <-
        end;
    try congruence; try (by apply IH).
Qed.

End ExistingPass.

(** ** The writes of the first loop of [AddItem] *)

Section FirstLoop.
Context {Id : Type} {Id_eq_dec : EqDecision Id}.
Variable nil : Id.
Variable max_count : Id -> Z.
Context {World : Type}.
Local Abbreviation mops := (item.model_ops nil max_count).
Local Abbreviation Stack := (item.Stack Id).
Implicit Types (inv : Inventory Stack World) (w : World) (l : list Stack) (it s : Stack).

Lemma AddStack_remainder_item s it :
  item.item (item.AddStack (StackOps := mops) s it).2 = item.item it.
Proof.
  cbn. unfold item.model_AddStack. by destruct (item.model_Comparable s it).
Qed.

Lemma Comparable_same_item s it it' :
  item.item it' = item.item it ->
  item.Comparable (StackOps := mops) s it' = item.Comparable (StackOps := mops) s it.
Proof. intros Heq. cbn. unfold item.model_Comparable. by rewrite Heq. Qed.

Lemma sweep_existing_writes l :
  forall (i : nat) it l' ws e,
    sweep (existing_body (ops := mops)) i l it = (l', ws, e) ->
    ws.*1 `prefix_of` nonempty_from (ops := mops) i l
    /\ (forall r, e = FellThrough r -> ws.*1 = nonempty_from (ops := mops) i l)
    /\ (forall slot a, (slot, a) ∈ ws ->
          exists (k : nat) s r,
            slot = Z.of_nat (i + k)
            /\ l !! k = Some s
            /\ item.Empty (StackOps := mops) s = false
            /\ item.item r = item.item it
            /\ a = (item.AddStack (StackOps := mops) s r).1
            /\ l' !! k = Some a)
    /\ (forall (k : nat) s,
          l !! k = Some s -> item.Comparable (StackOps := mops) s it = false ->
          l' !! k = Some s).
Proof.
  induction l as [|s rest IH]; intros i it l' ws e Hsweep.
  - cbn in Hsweep. injection Hsweep as <- <- <-. cbn.
    repeat split; [done| |done]. intros slot a Hin. by apply elem_of_nil in Hin.
  - cbn [sweep] in Hsweep. unfold existing_body in Hsweep. cbn [nonempty_from].
    destruct (item.Empty (StackOps := mops) s) eqn:Hempty.
    { destruct (sweep _ (S i) rest it) as [[l0 ws0] e0] eqn:Hrest.
      injection Hsweep as <- <- <-.
      destruct (IH _ _ _ _ _ Hrest) as (Hpre & Hall & Hin & Hkeep).
      repeat split; [done|done| |].
      - intros slot a Ha. destruct (Hin slot a Ha) as (k & s' & r & -> & ? & ? & ? & ? & ?).
        exists (S k), s', r. repeat split; try done. lia.
      - intros [|k] s' Hs' Hcmp; [exact Hs'|]. exact (Hkeep k s' Hs' Hcmp). }
    destruct (item.AddStack (StackOps := mops) s it) as [a b] eqn:Hadd.
    assert (Ha : a = (item.AddStack (StackOps := mops) s it).1) by (by rewrite Hadd).
    assert (Hb : item.item b = item.item it).
    { pose proof (AddStack_remainder_item s it) as H. by rewrite Hadd in H. }
    assert (Hsame : item.Comparable (StackOps := mops) s it = false -> a = s).
    { intros Hcmp. by rewrite (AddStack_incomparable nil max_count) in Hadd by done;
        injection Hadd as <- <-. }
    destruct (item.Empty (StackOps := mops) b).
    + injection Hsweep as <- <- <-. cbn [fmap list_fmap fst].
      repeat split.
      * apply prefix_cons, prefix_nil.
      * done.
      * intros slot a' Hin. apply list_elem_of_singleton in Hin. injection Hin as -> ->.
        exists 0%nat, s, it. repeat split; try done. lia.
      * intros [|k] s' Hs' Hcmp; [|exact Hs'].
        cbn in Hs'. injection Hs' as <-. by rewrite Hsame.
    + destruct (sweep _ (S i) rest b) as [[l0 ws0] e0] eqn:Hrest.
      injection Hsweep as <- <- <-.
      destruct (IH _ _ _ _ _ Hrest) as (Hpre & Hall & Hin & Hkeep).
      cbn [fmap list_fmap fst]. repeat split.
      * by apply prefix_cons.
      * intros r Hr. f_equal. by eapply Hall.
      * intros slot a' Ha'. apply elem_of_cons in Ha' as [Heq|Ha'].
        { injection Heq as -> ->. exists 0%nat, s, it. repeat split; try done. lia. }
        destruct (Hin slot a' Ha') as (k & s' & r & -> & ? & ? & ? & ? & ?).
        exists (S k), s', r. repeat split; try done; [lia|congruence].
      * intros [|k] s' Hs' Hcmp.
        { cbn in Hs'. injection Hs' as <-. by rewrite Hsame. }
        refine (Hkeep k s' Hs' _). by rewrite (Comparable_same_item s' it b).
Qed.

(** C2, as the code has it: the first loop of [AddItem] goes through the
    slots in ascending order and passes over the empty ones; at every
    non-empty slot it reaches, comparable or not, it combines the slot's
    stack with the incoming one, writes the result back and notifies the
    hook, and goes on with the remainder, returning nil at the first slot
    whose remainder is empty: its result is the one of the relation
    [existing_pass], which has a write and a notification at each non-empty
    slot and no test of comparability.  The notified slot numbers are the
    numbers of the non-empty slots, in order, up to the slot where the loop
    returns (all of them when it runs to its end).  What is written to a
    slot whose stack is not comparable to the incoming one is that slot's own
    stack, so such a slot keeps its contents, but it is written and notified
    all the same. *)
Theorem AddItem_existing_writes inv it w :
  exists e inv' ws,
    AddItem_existing (ops := mops) (seq 0 (length (slots inv))) it inv w
    = Returned (e, inv', notify (f inv) ws w)
    /\ existing_pass (ops := mops) 0 it inv w (e, inv', notify (f inv) ws w)
    /\ (forall s r, item.Comparable (StackOps := mops) s r = false ->
                    item.AddStack (StackOps := mops) s r = (s, r))
    /\ ws.*1 `prefix_of` nonempty_from (ops := mops) 0 (slots inv)
    /\ (forall r, e = FellThrough r -> ws.*1 = nonempty_from (ops := mops) 0 (slots inv))
    /\ (forall slot a, (slot, a) ∈ ws ->
          exists s r,
            slots inv !! Z.to_nat slot = Some s
            /\ item.Empty (StackOps := mops) s = false
            /\ item.Comparable (StackOps := mops) s r
               = item.Comparable (StackOps := mops) s it
            /\ a = (item.AddStack (StackOps := mops) s r).1
            /\ slots inv' !! Z.to_nat slot = Some a
            /\ (item.Comparable (StackOps := mops) s it = false -> a = s))
    /\ (forall (i : nat) s,
          slots inv !! i = Some s ->
          item.Comparable (StackOps := mops) s it = false ->
          slots inv' !! i = Some s).
Proof.
  destruct (AddItem_existing_passes (ops := mops) (length (slots inv)) 0 it inv w)
    as (res & Hrun & Hpass); [done|].
  rewrite Hrun. rewrite AddItem_existing_range, range_slots_all in Hrun.
  destruct (sweep existing_body 0 (slots inv) it) as [[l' ws] e] eqn:Hsweep.
  injection Hrun as Hres. subst res.
  destruct (sweep_existing_writes _ _ _ _ _ _ Hsweep) as (Hpre & Hall & Hin & Hkeep).
  exists e, {| slots := l'; f := f inv |}, ws. cbn [slots].
  split; [done|]. split; [exact Hpass|].
  split; [intros s r; apply (AddStack_incomparable nil max_count)|].
  repeat split; [done|done| |done].
  intros slot a Ha. destruct (Hin slot a Ha) as (k & s & r & -> & Hs & He & Hr & Hadd & Hl').
  cbn. rewrite Nat2Z.id. exists s, r.
  assert (Hcmp : item.Comparable (StackOps := mops) s r
                 = item.Comparable (StackOps := mops) s it)
    by (by apply Comparable_same_item).
  repeat split; try done.
  intros Hne. rewrite Hadd.
  rewrite (AddStack_incomparable nil max_count s r); [done|].
  rewrite Hcmp. exact Hne.
Qed.

End FirstLoop.

(** The first loop of [AddItem] on a slot of ten ["B"] and a slot of five
    ["A"], for three incoming ["A"]: slot 0 is written back and notified
    with its own stack, slot 1 takes the three units, and the loop returns
    nil; the relation [existing_pass] allows no other result. *)
Example first_loop_two_writes :
  AddItem_existing (ops := scenario.ops) (seq 0 2) (scenario.A 3)
    (scenario.holding [scenario.B 10; scenario.A 5]) []
  = Returned (ReturnedNil, scenario.holding [scenario.B 10; scenario.A 8],
              [(0, scenario.B 10); (1, scenario.A 8)])
  /\ forall res,
       existing_pass (ops := scenario.ops) 0 (scenario.A 3)
         (scenario.holding [scenario.B 10; scenario.A 5]) [] res ->
       res = (ReturnedNil, scenario.holding [scenario.B 10; scenario.A 8],
              [(0, scenario.B 10); (1, scenario.A 8)]).
Proof.
  split; [reflexivity|]. intros res Hres.
  destruct (AddItem_existing_passes (ops := scenario.ops) 2 0 (scenario.A 3)
              (scenario.holding [scenario.B 10; scenario.A 5]) [] eq_refl)
    as (res' & Hrun & Hpass).
  rewrite (existing_pass_deterministic _ _ _ _ _ _ Hres Hpass).
  cbn in Hrun. by injection Hrun as <-.
Qed.

(** C2 as stated fails: the slot holds ten units of ["B"], not comparable to
    the incoming five units of ["A"]; the first loop of [AddItem] writes the
    slot back and notifies the hook for slot 0, and so the whole [AddItem],
    which then fails, has notified the hook once. *)
Lemma incomparable_slot_notified :
  item.Empty (StackOps := scenario.ops) (scenario.B 10) = false
  /\ item.Comparable (StackOps := scenario.ops) (scenario.B 10) (scenario.A 5) = false
  /\ AddItem_existing (ops := scenario.ops) [0%nat] (scenario.A 5)
       (scenario.holding [scenario.B 10]) []
     = Returned (FellThrough (scenario.A 5), scenario.holding [scenario.B 10],
                 [(0, scenario.B 10)])
  /\ AddItem (ops := scenario.ops) (scenario.holding [scenario.B 10]) (scenario.A 5) []
     = Returned (Some ErrCouldNotAdd, scenario.holding [scenario.B 10],
                 [(0, scenario.B 10)]).
Proof. repeat split; reflexivity. Qed.

Lemma AddItem_failure_fills_witness :
  0 <= item.count (scenario.A 200)
  /\ Forall (fun s => 0 <= item.count s)
       (slots (scenario.holding [scenario.A 64; scenario.A 6; scenario.B 3; scenario.A 0]))
  /\ AddItem (ops := scenario.ops)
       (scenario.holding [scenario.A 64; scenario.A 6; scenario.B 3; scenario.A 0])
       (scenario.A 200) []
     = Returned (Some ErrCouldNotAdd,
                 scenario.holding [scenario.A 64; scenario.A 64; scenario.B 3; scenario.A 64],
                 [(0, scenario.A 64); (1, scenario.A 64); (2, scenario.B 3);
                  (3, scenario.A 64)])
  /\ slots (scenario.holding [scenario.A 64; scenario.A 64; scenario.B 3; scenario.A 64])
     = map (item.topped_up scenario.max_count (scenario.A 200))
         (slots (scenario.holding [scenario.A 64; scenario.A 6; scenario.B 3; scenario.A 0]))
  /\ f (scenario.holding [scenario.A 64; scenario.A 64; scenario.B 3; scenario.A 64])
     = f (scenario.holding [scenario.A 64; scenario.A 6; scenario.B 3; scenario.A 0])
  /\ Forall (fun s' => item.accepts (scenario.A 200) s' -> item.full scenario.max_count s')
       (slots (scenario.holding [scenario.A 64; scenario.A 64; scenario.B 3; scenario.A 64])).
Proof.
  assert (H1 : 0 <= item.count (scenario.A 200)) by (cbn; lia).
  assert (H2 : Forall (fun s : item.Stack string => 0 <= item.count s)
                 (slots (scenario.holding
                           [scenario.A 64; scenario.A 6; scenario.B 3; scenario.A 0]))).
  { repeat constructor; cbn; lia. }
  assert (H3 : AddItem (ops := scenario.ops)
                 (scenario.holding [scenario.A 64; scenario.A 6; scenario.B 3; scenario.A 0])
                 (scenario.A 200) []
               = Returned (Some ErrCouldNotAdd,
                           scenario.holding
                             [scenario.A 64; scenario.A 64; scenario.B 3; scenario.A 64],
                           [(0, scenario.A 64); (1, scenario.A 64); (2, scenario.B 3);
                            (3, scenario.A 64)])) by reflexivity.
  split; [exact H1|]. split; [exact H2|]. split; [exact H3|].
  exact (AddItem_failure_fills "" scenario.max_count _ _ _ _ _ H1 H2 H3).
Defined.

(** ** Removing from an inventory where nothing matches *)

Section NothingMatches.
Context {Stack ItemT : Type} {ops : item.StackOps Stack ItemT} {World : Type}.
Implicit Types (inv : Inventory Stack World) (w : World) (l : list Stack) (it : Stack).

Lemma sweep_remove_all_empty it l :
  forall i r,
    Empty_loop l = true ->
    sweep (remove_body it) i l r = (l, [], FellThrough r).
Proof.
  induction l as [|s rest IH]; intros i r Hl; [done|].
  cbn [Empty_loop] in Hl. cbn [sweep]. unfold remove_body.
  destruct (item.Empty s); cbn in Hl; [|done].
  by rewrite IH.
Qed.

(** X12: On an empty inventory [RemoveItem] returns its error and changes
    nothing, whatever the stack asked for, a stack of quantity 0 included. *)
Lemma RemoveItem_from_empty inv it w :
  Empty inv = true ->
  RemoveItem inv it w = Returned (Some ErrCouldNotRemove, inv, w).
Proof.
  intros Hempty. rewrite RemoveItem_sweep, sweep_remove_all_empty by done.
  cbn. by destruct inv.
Qed.

End NothingMatches.

(** * Further properties of the inventory *)

Section MoreSlots.
Context {Stack ItemT : Type} {ops : item.StackOps Stack ItemT} {World : Type}.
Implicit Types (inv : Inventory Stack World) (w : World) (slot : Z) (l : list Stack).

Lemma Item_in_range inv slot :
  0 <= slot < Size inv ->
  exists s, slots inv !! Z.to_nat slot = Some s /\ Item inv slot = Returned (s, None).
Proof.
  intros Hslot. unfold Item. rewrite check_initialised by lia. cbn.
  rewrite (proj2 (validSlot_spec inv slot)) by done. cbn.
  destruct (lookup_lt_is_Some_2 (slots inv) (Z.to_nat slot)) as [s Hs];
    [unfold Size in Hslot; lia|].
  exists s. by rewrite Hs.
Qed.

(** X1: [SetItem] on a valid slot leaves what [Item] returns for every other
    slot number, valid or not, as it was. *)
Theorem SetItem_other_slots inv w slot (x : Stack) (j : Z) :
  0 <= slot < Size inv ->
  j <> slot ->
  exists inv' w',
    SetItem inv slot x w = Returned (None, inv', w')
    /\ Item inv' j = Item inv j.
Proof.
  intros Hslot Hj.
  exists {| slots := <[Z.to_nat slot := x]> (slots inv); f := f inv |}, (f inv slot x w).
  split.
  - unfold SetItem. rewrite check_initialised by lia. cbn.
    rewrite (proj2 (validSlot_spec inv slot)) by done. cbn.
    unfold setItem. fold (Size inv). fold (validSlot inv slot).
    by rewrite (proj2 (validSlot_spec inv slot)).
  - unfold Item, check, validSlot, Size. cbn [slots]. rewrite length_insert.
    destruct (Z.of_nat (length (slots inv)) =? 0); [done|]. cbn.
    destruct (0 <=? j) eqn:H0; [|done].
    destruct (j <? Z.of_nat (length (slots inv))) eqn:H1; [|done]. cbn.
    apply Z.leb_le in H0. rewrite list_lookup_insert_ne; [done|]. lia.
Qed.

(** X2: A new inventory holds the zero stack in each of its slots; when the
    zero stack is empty, as it is for a stack without units, the new
    inventory is empty. *)
Theorem New_all_zero (size : Z) (fn : option (hook Stack World)) slot :
  item.Empty (item.zero (Stack := Stack)) = true ->
  0 <= slot < size ->
  exists inv,
    New size fn = Returned inv
    /\ Item inv slot = Returned (item.zero, None)
    /\ Empty inv = true.
Proof.
  intros Hzero Hslot. unfold New.
  destruct (Z.leb_spec size 0) as [|_]; [lia|].
  eexists. split; [done|]. split.
  - destruct (Item_in_range
                {| slots := replicate (Z.to_nat size) item.zero;
                   f := match fn with Some g => g | None => no_op end |} slot)
      as (s & Hs & ->).
    + unfold Size. cbn. rewrite length_replicate. lia.
    + cbn in Hs. apply lookup_replicate in Hs as [-> _]. done.
  - unfold Empty. cbn [slots]. induction (Z.to_nat size) as [|n IH]; [done|].
    cbn. by rewrite Hzero.
Qed.

Lemma Empty_loop_Forall l :
  Empty_loop l = true <-> Forall (fun s => item.Empty s = true) l.
Proof.
  induction l as [|s rest IH]; cbn.
  - split; [constructor|done].
  - destruct (item.Empty s) eqn:Hs; cbn.
    + rewrite IH. split; [by constructor|by inversion 1].
    + split; [done|]. inversion 1; congruence.
Qed.

(** X3: [Empty] agrees with [Item]: on an initialised inventory it returns true
    exactly when every stack that [Item] returns without error is empty. *)
Theorem Empty_iff_Item inv :
  0 < Size inv ->
  Empty inv = true
  <-> forall slot s, Item inv slot = Returned (s, None) -> item.Empty s = true.
Proof.
  intros Hsize. unfold Empty. rewrite Empty_loop_Forall, Forall_lookup. split.
  - intros Hall slot s Hitem.
    destruct (decide (0 <= slot < Size inv)) as [Hin|Hout].
    + destruct (Item_in_range inv slot Hin) as (s' & Hs' & Heq).
      rewrite Heq in Hitem. injection Hitem as <-. by eapply Hall.
    + unfold Item in Hitem. rewrite check_initialised in Hitem by done. cbn in Hitem.
      rewrite validSlot_false in Hitem by lia. done.
  - intros Hall i s Hs. apply (Hall (Z.of_nat i)).
    destruct (Item_in_range inv (Z.of_nat i)) as (s' & Hs' & ->).
    + apply lookup_lt_Some in Hs. unfold Size. lia.
    + rewrite Nat2Z.id in Hs'. congruence.
Qed.

End MoreSlots.

(** ** Notifications and writes *)

Section Replay.
Context {Stack ItemT : Type} {ops : item.StackOps Stack ItemT} {World : Type}.
Implicit Types (inv : Inventory Stack World) (w : World) (l pre : list Stack).

Lemma apply_writes_app (ws1 ws2 : list (Z * Stack)) l :
  apply_writes (ws1 ++ ws2) l = apply_writes ws2 (apply_writes ws1 l).
Proof. apply fold_left_app. Qed.

Lemma insert_middle pre (s a : Stack) l :
  <[Z.to_nat (Z.of_nat (length pre)) := a]> (pre ++ s :: l) = pre ++ a :: l.
Proof.
  rewrite Nat2Z.id.
  replace (length pre) with (length pre + 0)%nat at 1 by lia.
  by rewrite insert_app_r.
Qed.

Lemma sweep_apply_writes {X : Type} (body : Stack -> X -> visit X) l :
  forall pre x l' ws e,
    sweep body (length pre) l x = (l', ws, e) ->
    apply_writes ws (pre ++ l) = pre ++ l'.
Proof.
  induction l as [|s rest IH]; intros pre x l' ws e Hsweep.
  - cbn in Hsweep. by injection Hsweep as <- <- <-.
  - cbn [sweep] in Hsweep. destruct (body s x) as [|a x' stop].
    + destruct (sweep body (S (length pre)) rest x) as [[l0 ws0] e0] eqn:Hrest.
      injection Hsweep as <- <- <-.
      specialize (IH (pre ++ [s]) x l0 ws0 e0).
      rewrite length_app, Nat.add_1_r, <- !app_assoc in IH. by apply IH.
    + destruct stop.
      * injection Hsweep as <- <- <-. cbn. apply insert_middle.
      * destruct (sweep body (S (length pre)) rest x') as [[l0 ws0] e0] eqn:Hrest.
        injection Hsweep as <- <- <-.
        cbn [apply_writes fold_left fst snd]. rewrite insert_middle.
        specialize (IH (pre ++ [a]) x' l0 ws0 e0).
        rewrite length_app, Nat.add_1_r, <- !app_assoc in IH. by apply IH.
Qed.

(** Each call that returns has notified the hook it found of a list of
    writes and of nothing else, and the slots it leaves are the slots it
    found after these writes; only [Close] changes the hook. *)
Lemma run_writes (c : call Stack) inv w r inv' w' :
  run c inv w = Returned (r, inv', w') ->
  exists ws,
    w' = notify (f inv) ws w
    /\ slots inv' = apply_writes ws (slots inv)
    /\ f inv' = if is_Close c then no_op else f inv.
Proof.
  destruct c as [slot|slot it|it|it| | |]; cbn [run is_Close]; intros Hrun.
  - destruct (Item inv slot) as [[i e]|]; cbn in Hrun; [|done].
    injection Hrun as <- <- <-. by exists [].
  - unfold SetItem in Hrun. destruct (check inv); cbn in Hrun; [|done].
    destruct (validSlot inv slot) eqn:Hvalid; cbn in Hrun.
    + unfold setItem in Hrun. fold (Size inv) in Hrun. fold (validSlot inv slot) in Hrun.
      rewrite Hvalid in Hrun. cbn in Hrun. injection Hrun as <- <- <-.
      by exists [(slot, it)].
    + injection Hrun as <- <- <-. by exists [].
  - rewrite AddItem_sweep in Hrun.
    destruct (sweep existing_body 0 (slots inv) it) as [[l1 ws1] e1] eqn:E1.
    pose proof (sweep_apply_writes _ _ [] _ _ _ _ E1) as H1. cbn in H1.
    destruct e1 as [|it1].
    + cbn in Hrun. injection Hrun as <- <- <-. by exists ws1.
    + destruct (sweep empty_body 0 l1 it1) as [[l2 ws2] e2] eqn:E2.
      pose proof (sweep_apply_writes _ _ [] _ _ _ _ E2) as H2. cbn in H2.
      cbn in Hrun. injection Hrun as <- <- <-.
      exists (ws1 ++ ws2). cbn. rewrite apply_writes_app. by rewrite H1.
  - rewrite RemoveItem_sweep in Hrun.
    destruct (sweep (remove_body it) 0 (slots inv) (item.Count it))
      as [[l1 ws1] e1] eqn:E1.
    pose proof (sweep_apply_writes _ _ [] _ _ _ _ E1) as H1. cbn in H1.
    cbn in Hrun. injection Hrun as <- <- <-. by exists ws1.
  - injection Hrun as <- <- <-. by exists [].
  - injection Hrun as <- <- <-. by exists [].
  - injection Hrun as <- <- <-. by exists [].
Qed.

End Replay.

Section Recorded.
Context {Stack ItemT : Type} {ops : item.StackOps Stack ItemT}.

(** X4: With a hook that records its notifications, and as long as [Close] is
    not called, replaying the recorded notifications as writes on the slots
    the inventory started with gives the slots it ends with: the
    notifications tell an observer all that happened to the slots. *)
Theorem notifications_replay (cs : list (call Stack)) :
  forall (inv : Inventory Stack (list (Z * Stack))) rs
         (inv' : Inventory Stack (list (Z * Stack))) log',
    f inv = recorder ->
    forallb (fun c => negb (is_Close c)) cs = true ->
    run_all cs inv [] = Returned (rs, inv', log') ->
    slots inv' = apply_writes log' (slots inv).
Proof.
  assert (Hgen : forall cs (inv : Inventory Stack (list (Z * Stack))) log rs
                        (inv' : Inventory Stack (list (Z * Stack))) log',
             f inv = recorder ->
             forallb (fun c => negb (is_Close c)) cs = true ->
             run_all cs inv log = Returned (rs, inv', log') ->
             exists ws, log' = log ++ ws /\ slots inv' = apply_writes ws (slots inv)).
  { clear cs. induction cs as [|c cs IH]; intros inv log rs inv' log' Hf Hcs Hrun.
    - cbn in Hrun. injection Hrun as <- <- <-. exists []. by rewrite app_nil_r.
    - cbn [run_all] in Hrun. cbn [forallb] in Hcs.
      apply andb_true_iff in Hcs as [Hc Hcs].
      destruct (run c inv log) as [[[r inv1] log1]|] eqn:Hstep; cbn in Hrun; [|done].
      destruct (run_all cs inv1 log1) as [[[rs1 inv2] log2]|] eqn:Hrest;
        cbn in Hrun; [|done].
      injection Hrun as <- <- <-.
      destruct (run_writes _ _ _ _ _ _ Hstep) as (ws1 & Hlog1 & Hslots1 & Hf1).
      apply negb_true_iff in Hc. rewrite Hc, Hf in Hf1.
      rewrite Hf, notify_recorder in Hlog1.
      destruct (IH _ _ _ _ _ Hf1 Hcs Hrest) as (ws2 & Hlog2 & Hslots2).
      exists (ws1 ++ ws2). split.
      + by rewrite Hlog2, Hlog1, app_assoc.
      + by rewrite apply_writes_app, <- Hslots1. }
  intros inv rs inv' log' Hf Hcs Hrun.
  destruct (Hgen cs inv [] rs inv' log' Hf Hcs Hrun) as (ws & -> & Hslots). done.
Qed.

End Recorded.

Section RemoveFrame.
Context {Stack ItemT : Type} {ops : item.StackOps Stack ItemT} {World : Type}.
Implicit Types (inv : Inventory Stack World) (w : World) (l : list Stack).

Lemma sweep_remove_keeps it l :
  forall i r l' ws e,
    sweep (remove_body it) i l r = (l', ws, e) ->
    forall (k : nat) s, l !! k = Some s -> matches it s = false -> l' !! k = Some s.
Proof.
  induction l as [|s0 rest IH]; intros i r l' ws e Hsweep k s Hs Hm; [done|].
  cbn [sweep] in Hsweep. unfold remove_body in Hsweep.
  destruct (item.Empty s0) eqn:He.
  { destruct (sweep _ (S i) rest r) as [[l0 ws0] e0] eqn:Hrest.
    injection Hsweep as <- <- <-.
    destruct k as [|k]; [exact Hs|]. exact (IH _ _ _ _ _ Hrest k s Hs Hm). }
  destruct (item.Comparable s0 it) eqn:Hc; cbn [negb] in Hsweep.
  2:{ destruct (sweep _ (S i) rest r) as [[l0 ws0] e0] eqn:Hrest.
      injection Hsweep as <- <- <-.
      destruct k as [|k]; [exact Hs|]. exact (IH _ _ _ _ _ Hrest k s Hs Hm). }
  destruct k as [|k].
  { cbn in Hs. injection Hs as <-. unfold matches in Hm. by rewrite He, Hc in Hm. }
  destruct (_ <=? 0).
  - injection Hsweep as <- <- <-. exact Hs.
  - destruct (sweep _ (S i) rest _) as [[l0 ws0] e0] eqn:Hrest.
    injection Hsweep as <- <- <-. exact (IH _ _ _ _ _ Hrest k s Hs Hm).
Qed.

(** X5: [RemoveItem], whether it succeeds or not, leaves every slot that is
    empty or holds a stack not comparable to the one asked for exactly as
    it was. *)
Theorem RemoveItem_keeps_others inv (it : Stack) w e inv' w' (k : nat) (s : Stack) :
  RemoveItem inv it w = Returned (e, inv', w') ->
  slots inv !! k = Some s ->
  matches it s = false ->
  slots inv' !! k = Some s.
Proof.
  intros Hrun Hs Hm. rewrite RemoveItem_sweep in Hrun.
  destruct (sweep (remove_body it) 0 (slots inv) (item.Count it))
    as [[l1 ws1] e1] eqn:E1.
  cbn in Hrun. injection Hrun as <- <- <-. cbn.
  exact (sweep_remove_keeps _ _ _ _ _ _ _ E1 k s Hs Hm).
Qed.

End RemoveFrame.

(** ** Quantities, on the stack of the capability description *)

Section Quantities.
Context {Id : Type} {Id_eq_dec : EqDecision Id}.
Variable nil : Id.
Variable max_count : Id -> Z.
Context {World : Type}.
Local Abbreviation mops := (item.model_ops nil max_count).
Local Abbreviation Stack := (item.Stack Id).
Implicit Types (inv : Inventory Stack World) (w : World) (l : list Stack) (it s : Stack)
  (t : Id).

(** What is left to place when a loop of [AddItem] ends. *)
Local Abbreviation left_over e :=
  (match e with ReturnedNil => 0 | FellThrough x => item.count x end).

Lemma sweep_existing_quantity l :
  forall i it l' ws e,
    0 <= item.count it ->
    sweep (existing_body (ops := mops)) i l it = (l', ws, e) ->
    0 <= left_over e <= item.count it
    /\ (forall x, e = FellThrough x -> item.item x = item.item it)
    /\ forall t, item.quantity_of t l'
                 = item.quantity_of t l
                   + (if bool_decide (item.item it = t)
                      then item.count it - left_over e else 0).
Proof.
  induction l as [|s rest IH]; intros i it l' ws e Hit Hsweep.
  - cbn in Hsweep. injection Hsweep as <- <- <-. cbn.
    split; [lia|]. split; [congruence|]. intros t. case_bool_decide; lia.
  - cbn [sweep] in Hsweep. rewrite (existing_body_model nil max_count) in Hsweep.
    cbn [item.quantity_of].
    destruct (Z.eqb_spec (item.count s) 0) as [Hs|Hs].
    { destruct (sweep _ (S i) rest it) as [[l0 ws0] e0] eqn:Hrest.
      injection Hsweep as <- <- <-.
      destruct (IH _ _ _ _ _ Hit Hrest) as (Hrem & Hx & Hq).
      split; [done|]. split; [done|]. intros t. cbn [item.quantity_of].
      rewrite Hq. lia. }
    case_bool_decide as Hcmp.
    + cbn zeta in Hsweep.
      set (diff := Z.max 0 (Z.min (max_count (item.item s) - item.count s) (item.count it)))
        in Hsweep.
      assert (Hdiff : 0 <= diff <= item.count it) by (unfold diff; lia).
      destruct (Z.eqb_spec (item.count it - diff) 0) as [Hrem|Hrem].
      * injection Hsweep as <- <- <-. split; [lia|]. split; [done|].
        intros t. cbn [item.quantity_of item.item item.count]. rewrite Hcmp.
        case_bool_decide; lia.
      * destruct (sweep _ (S i) rest _) as [[l0 ws0] e0] eqn:Hrest.
        injection Hsweep as <- <- <-.
        apply IH in Hrest as (Hrem' & Hx & Hq); [|cbn; lia].
        cbn [item.item item.count] in *.
        split; [lia|]. split; [done|].
        intros t. cbn [item.quantity_of item.item item.count]. rewrite Hq, Hcmp.
        case_bool_decide; lia.
    + destruct (Z.eqb_spec (item.count it) 0) as [H0|H0].
      * injection Hsweep as <- <- <-. split; [lia|]. split; [done|].
        intros t. cbn [item.quantity_of]. repeat case_bool_decide; lia.
      * destruct (sweep _ (S i) rest it) as [[l0 ws0] e0] eqn:Hrest.
        injection Hsweep as <- <- <-.
        destruct (IH _ _ _ _ _ Hit Hrest) as (Hrem & Hx & Hq).
        split; [done|]. split; [done|].
        intros t. cbn [item.quantity_of]. rewrite Hq. lia.
Qed.

Lemma sweep_empty_quantity l :
  forall i it l' ws e,
    0 <= item.count it ->
    sweep (empty_body (ops := mops)) i l it = (l', ws, e) ->
    0 <= left_over e <= item.count it
    /\ forall t, item.quantity_of t l'
                 = item.quantity_of t l
                   + (if bool_decide (item.item it = t)
                      then item.count it - left_over e else 0).
Proof.
  induction l as [|s rest IH]; intros i it l' ws e Hit Hsweep.
  - cbn in Hsweep. injection Hsweep as <- <- <-. cbn.
    split; [lia|]. intros t. case_bool_decide; lia.
  - cbn [sweep] in Hsweep. rewrite (empty_body_model nil max_count) in Hsweep by done.
    cbn [item.quantity_of].
    destruct (Z.eqb_spec (item.count s) 0) as [Hs|Hs]; cbn [negb] in Hsweep.
    2:{ destruct (sweep _ (S i) rest it) as [[l0 ws0] e0] eqn:Hrest.
        injection Hsweep as <- <- <-.
        destruct (IH _ _ _ _ _ Hit Hrest) as (Hrem & Hq).
        split; [done|]. intros t. cbn [item.quantity_of]. rewrite Hq. lia. }
    cbn zeta in Hsweep.
    set (diff := Z.max 0 (Z.min (max_count (item.item it)) (item.count it))) in Hsweep.
    assert (Hdiff : 0 <= diff <= item.count it) by (unfold diff; lia).
    destruct (Z.eqb_spec (item.count it - diff) 0) as [Hrem|Hrem].
    + injection Hsweep as <- <- <-. split; [lia|].
      intros t. cbn [item.quantity_of item.item item.count].
      rewrite Hs. repeat case_bool_decide; lia.
    + destruct (sweep _ (S i) rest _) as [[l0 ws0] e0] eqn:Hrest.
      injection Hsweep as <- <- <-.
      apply IH in Hrest as (Hrem' & Hq); [|cbn; lia].
      cbn [item.item item.count] in *.
      split; [lia|].
      intros t. cbn [item.quantity_of item.item item.count]. rewrite Hq, Hs.
      repeat case_bool_decide; lia.
Qed.

(** X6: [AddItem] neither creates nor destroys units: it adds to the quantity
    of the identity of the incoming stack what it could place, at most the
    count of that stack and exactly that count when it returns nil, and it
    leaves the quantity of every other identity as it was. *)
Theorem AddItem_quantities inv it w e inv' w' :
  0 <= item.count it ->
  AddItem (ops := mops) inv it w = Returned (e, inv', w') ->
  exists placed,
    0 <= placed <= item.count it
    /\ (e = None -> placed = item.count it)
    /\ forall t, item.quantity_of t (slots inv')
                 = item.quantity_of t (slots inv)
                   + (if bool_decide (item.item it = t) then placed else 0).
Proof.
  intros Hit Hadd. rewrite AddItem_sweep in Hadd.
  destruct (sweep existing_body 0 (slots inv) it) as [[l1 ws1] e1] eqn:E1.
  destruct (sweep_existing_quantity _ _ _ _ _ _ Hit E1) as (Hrem1 & Hx1 & Hq1).
  destruct e1 as [|it1].
  - injection Hadd as <- <- <-. exists (item.count it). cbn in *.
    split; [lia|]. split; [done|]. intros t. rewrite Hq1. case_bool_decide; lia.
  - destruct (sweep empty_body 0 l1 it1) as [[l2 ws2] e2] eqn:E2.
    cbn in Hrem1. specialize (Hx1 it1 eq_refl).
    pose proof E2 as E2'. apply sweep_empty_quantity in E2' as (Hrem2 & Hq2); [|lia].
    cbn in Hadd. injection Hadd as <- <- <-. cbn [slots].
    exists (item.count it - left_over e2). split; [lia|]. split.
    + destruct e2; cbn; [lia|done].
    + intros t. rewrite Hq2, Hq1, Hx1. cbn. case_bool_decide; lia.
Qed.

End Quantities.

(** ** Room and capacity *)

Section Room.
Context {Id : Type} {Id_eq_dec : EqDecision Id}.
Variable nil : Id.
Variable max_count : Id -> Z.
Context {World : Type}.
Local Abbreviation mops := (item.model_ops nil max_count).
Local Abbreviation Stack := (item.Stack Id).
Local Abbreviation nonneg := (fun s : item.Stack Id => 0 <= item.count s).
Implicit Types (inv : Inventory Stack World) (w : World) (l : list Stack) (it s : Stack)
  (t : Id).
Local Abbreviation left_over e :=
  (match e with ReturnedNil => 0 | FellThrough x => item.count x end).

Lemma room_in_item it it' s :
  item.item it' = item.item it ->
  item.room_in max_count it' s = item.room_in max_count it s.
Proof.
  intros Heq. unfold item.room_in, item.model_Comparable, item.model_MaxCount.
  by rewrite Heq.
Qed.

Lemma room_for_item it it' l :
  item.item it' = item.item it ->
  item.room_for max_count it' l = item.room_for max_count it l.
Proof.
  intros Heq. induction l as [|s rest IH]; [done|].
  cbn. by rewrite IH, (room_in_item it it').
Qed.

Lemma room_in_nonneg it s : 0 <= item.room_in max_count it s.
Proof.
  unfold item.room_in. destruct (item.model_Empty s); [lia|].
  destruct (item.model_Comparable s it); lia.
Qed.

Lemma room_for_nonneg it l : 0 <= item.room_for max_count it l.
Proof.
  induction l as [|s rest IH]; cbn; [lia|]. pose proof (room_in_nonneg it s). lia.
Qed.

Lemma sweep_existing_room l :
  forall i it l' ws e,
    0 <= item.count it ->
    Forall nonneg l ->
    sweep (existing_body (ops := mops)) i l it = (l', ws, e) ->
    item.room_for max_count it l' + (item.count it - left_over e)
    = item.room_for max_count it l
    /\ Forall nonneg l'
    /\ (0 < item.count it -> forall x, e = FellThrough x -> 0 < item.count x)
    /\ (Forall (item.within_capacity max_count) l ->
        Forall (item.within_capacity max_count) l').
Proof.
  induction l as [|s rest IH]; intros i it l' ws e Hit Hl Hsweep.
  - cbn in Hsweep. injection Hsweep as <- <- <-. cbn.
    split; [lia|]. split; [done|]. split; [|done]. intros ? x [= <-]. done.
  - apply Forall_cons in Hl as [Hs Hrest0].
    cbn [sweep] in Hsweep. rewrite (existing_body_model nil max_count) in Hsweep.
    cbn [item.room_for].
    destruct (Z.eqb_spec (item.count s) 0) as [Hs0|Hs0].
    { destruct (sweep _ (S i) rest it) as [[l0 ws0] e0] eqn:Hrest.
      injection Hsweep as <- <- <-.
      destruct (IH _ _ _ _ _ Hit Hrest0 Hrest) as (Hroom & Hnn & Hpos & Hcap).
      cbn [item.room_for]. split; [lia|]. split; [by constructor|]. split; [done|].
      intros Hc. apply Forall_cons in Hc as [? ?]. constructor; auto. }
    case_bool_decide as Hcmp.
    + cbn zeta in Hsweep.
      set (diff := Z.max 0 (Z.min (max_count (item.item s) - item.count s) (item.count it)))
        in Hsweep.
      assert (Hdiff : 0 <= diff <= item.count it) by (unfold diff; lia).
      assert (Hroom_s :
                item.room_in max_count it
                  (item.mkStack (item.item s) (item.count s + diff)) + diff
                = item.room_in max_count it s).
      { unfold item.room_in, item.model_Empty, item.model_Comparable,
          item.model_MaxCount. cbn [item.item item.count].
        rewrite bool_decide_true by done.
        destruct (Z.eqb_spec (item.count s + diff) 0) as [|_]; [lia|].
        destruct (Z.eqb_spec (item.count s) 0) as [|_]; [lia|].
        unfold diff. lia. }
      assert (Hcap_s : item.within_capacity max_count s ->
                       item.within_capacity max_count
                         (item.mkStack (item.item s) (item.count s + diff))).
      { unfold item.within_capacity, item.model_MaxCount. cbn [item.item item.count].
        unfold diff. lia. }
      destruct (Z.eqb_spec (item.count it - diff) 0) as [Hrem|Hrem].
      * injection Hsweep as <- <- <-. cbn [item.room_for].
        split; [lia|]. split; [constructor; [cbn; lia|done]|]. split; [done|].
        intros Hc. apply Forall_cons in Hc as [? ?]. constructor; auto.
      * destruct (sweep _ (S i) rest _) as [[l0 ws0] e0] eqn:Hrest.
        injection Hsweep as <- <- <-.
        apply IH in Hrest as (Hroom & Hnn & Hpos & Hcap); [|cbn; lia|done].
        rewrite !(room_for_item it (item.mkStack (item.item it) _)) in Hroom by done.
        cbn [item.item item.count] in *. cbn [item.room_for].
        split; [lia|]. split; [constructor; [cbn; lia|done]|]. split.
        { intros _ x Hx. apply (Hpos ltac:(lia) x Hx). }
        intros Hc. apply Forall_cons in Hc as [? ?]. constructor; auto.
    + assert (Hroom_s : item.room_in max_count it s = 0).
      { unfold item.room_in, item.model_Empty, item.model_Comparable.
        destruct (Z.eqb_spec (item.count s) 0) as [|_]; [lia|].
        by rewrite bool_decide_false. }
      destruct (Z.eqb_spec (item.count it) 0) as [H0|H0].
      * injection Hsweep as <- <- <-. cbn [item.room_for].
        split; [lia|]. split; [by constructor|]. split; [done|]. done.
      * destruct (sweep _ (S i) rest it) as [[l0 ws0] e0] eqn:Hrest.
        injection Hsweep as <- <- <-.
        destruct (IH _ _ _ _ _ Hit Hrest0 Hrest) as (Hroom & Hnn & Hpos & Hcap).
        cbn [item.room_for]. split; [lia|]. split; [by constructor|]. split; [done|].
        intros Hc. apply Forall_cons in Hc as [? ?]. constructor; auto.
Qed.

Lemma sweep_empty_room l :
  forall i it l' ws e,
    0 <= item.count it ->
    Forall nonneg l ->
    sweep (empty_body (ops := mops)) i l it = (l', ws, e) ->
    item.room_for max_count it l' + (item.count it - left_over e)
    = item.room_for max_count it l
    /\ Forall nonneg l'
    /\ (0 < item.count it -> forall x, e = FellThrough x -> 0 < item.count x)
    /\ (0 <= max_count (item.item it) <= int_max ->
        Forall (item.within_capacity max_count) l ->
        Forall (item.within_capacity max_count) l').
Proof.
  induction l as [|s rest IH]; intros i it l' ws e Hit Hl Hsweep.
  - cbn in Hsweep. injection Hsweep as <- <- <-. cbn.
    split; [lia|]. split; [done|]. split; [|done]. intros ? x [= <-]. done.
  - apply Forall_cons in Hl as [Hs Hrest0].
    cbn [sweep] in Hsweep. rewrite (empty_body_model nil max_count) in Hsweep by done.
    cbn [item.room_for].
    destruct (Z.eqb_spec (item.count s) 0) as [Hs0|Hs0]; cbn [negb] in Hsweep.
    2:{ destruct (sweep _ (S i) rest it) as [[l0 ws0] e0] eqn:Hrest.
        injection Hsweep as <- <- <-.
        destruct (IH _ _ _ _ _ Hit Hrest0 Hrest) as (Hroom & Hnn & Hpos & Hcap).
        cbn [item.room_for]. split; [lia|]. split; [by constructor|]. split; [done|].
        intros HM Hc. apply Forall_cons in Hc as [? ?]. constructor; auto. }
    cbn zeta in Hsweep.
    set (diff := Z.max 0 (Z.min (max_count (item.item it)) (item.count it))) in Hsweep.
    assert (Hdiff : 0 <= diff <= item.count it) by (unfold diff; lia).
    assert (Hroom_s :
              item.room_in max_count it (item.mkStack (item.item it) diff) + diff
              = item.room_in max_count it s).
    { unfold item.room_in, item.model_Empty, item.model_Comparable,
        item.model_MaxCount. cbn [item.item item.count].
      rewrite bool_decide_true by done.
      destruct (Z.eqb_spec (item.count s) 0) as [_|]; [|lia].
      destruct (Z.eqb_spec diff 0) as [|_]; unfold diff in *; lia. }
    assert (Hcap_s : 0 <= max_count (item.item it) <= int_max ->
                     item.within_capacity max_count (item.mkStack (item.item it) diff)).
    { unfold item.within_capacity, item.model_MaxCount. cbn [item.item item.count].
      unfold diff. lia. }
    destruct (Z.eqb_spec (item.count it - diff) 0) as [Hrem|Hrem].
    + injection Hsweep as <- <- <-. cbn [item.room_for].
      split; [lia|]. split; [constructor; [cbn; lia|done]|]. split; [done|].
      intros HM Hc. apply Forall_cons in Hc as [? ?]. constructor; auto.
    + destruct (sweep _ (S i) rest _) as [[l0 ws0] e0] eqn:Hrest.
      injection Hsweep as <- <- <-.
      apply IH in Hrest as (Hroom & Hnn & Hpos & Hcap); [|cbn; lia|done].
      rewrite !(room_for_item it (item.mkStack (item.item it) _)) in Hroom by done.
      cbn [item.item item.count] in *. cbn [item.room_for].
      split; [lia|]. split; [constructor; [cbn; lia|done]|]. split.
      { intros _ x Hx. apply (Hpos ltac:(lia) x Hx). }
      intros HM Hc. apply Forall_cons in Hc as [? ?]. constructor; auto.
Qed.

Lemma room_for_topped_up it l :
  Forall nonneg l ->
  item.room_for max_count it (map (item.topped_up max_count it) l) = 0.
Proof.
  induction 1 as [|s rest Hs _ IH]; [done|].
  cbn [map item.room_for]. rewrite IH.
  unfold item.room_in, item.topped_up, item.model_Empty, item.model_Comparable,
    item.model_MaxCount.
  destruct (Z.eqb_spec (item.count s) 0) as [H0|H0]; cbn [item.item item.count].
  - rewrite bool_decide_true by done.
    destruct (Z.eqb_spec (Z.max 0 (max_count (item.item it))) 0); lia.
  - case_bool_decide as Hcmp; cbn [item.item item.count].
    + rewrite bool_decide_true by done.
      destruct (Z.eqb_spec (Z.max (item.count s) (max_count (item.item s))) 0); lia.
    + destruct (Z.eqb_spec (item.count s) 0); [lia|].
      rewrite bool_decide_false by done. lia.
Qed.

Lemma within_capacity_nonneg l :
  Forall (item.within_capacity max_count) l -> Forall nonneg l.
Proof.
  intros H. eapply Forall_impl; [exact H|]. intros s [? ?]. cbn. lia.
Qed.

(** X7: [AddItem] of a stack that holds something returns nil exactly when the
    count of the stack is no more than the room the inventory has for it:
    a whole stack for each empty slot, and what is missing to the maximum
    for each slot holding a comparable stack. *)
Theorem AddItem_succeeds_iff_room inv it w :
  0 < item.count it ->
  Forall (fun s => 0 <= item.count s) (slots inv) ->
  exists e inv' w',
    AddItem (ops := mops) inv it w = Returned (e, inv', w')
    /\ (e = None <-> item.count it <= item.room_for max_count it (slots inv)).
Proof.
  intros Hit Hl. rewrite AddItem_sweep.
  assert (Hit0 : 0 <= item.count it) by lia.
  destruct (sweep existing_body 0 (slots inv) it) as [[l1 ws1] e1] eqn:E1.
  destruct (sweep_existing_room _ _ _ _ _ _ Hit0 Hl E1)
    as (Hroom1 & Hnn1 & Hpos1 & _).
  destruct e1 as [|it1].
  - eexists _, _, _. split; [done|]. cbn in Hroom1.
    pose proof (room_for_nonneg it l1). split; [lia|done].
  - destruct (sweep_existing_fell nil max_count _ _ _ _ _ _ Hit0 E1)
      as (Hitem1 & _ & Hl1).
    specialize (Hpos1 Hit it1 eq_refl). cbn in Hroom1.
    assert (Hit1 : 0 <= item.count it1) by lia.
    destruct (sweep empty_body 0 l1 it1) as [[l2 ws2] e2] eqn:E2.
    destruct (sweep_empty_room _ _ _ _ _ _ Hit1 Hnn1 E2)
      as (Hroom2 & Hnn2 & Hpos2 & _).
    rewrite !(room_for_item it it1) in Hroom2 by done.
    eexists _, _, _. split; [done|].
    destruct e2 as [|it2]; cbn in Hroom2 |- *.
    + pose proof (room_for_nonneg it l2). split; [lia|done].
    + specialize (Hpos2 Hpos1 it2 eq_refl).
      apply (sweep_empty_fell nil max_count) in E2; [|lia].
      assert (Hl2 : l2 = map (item.topped_up max_count it) (slots inv)).
      { rewrite E2, Hl1, map_map. apply Forall_fmap_ext_1.
        eapply Forall_impl; [exact Hl|]. intros s Hs.
        by apply (filled_topped max_count). }
      rewrite Hl2, room_for_topped_up in Hroom2 by done.
      split; [done|lia].
Qed.

(** X8: [AddItem] never fills a slot beyond the maximum of its stack: if no
    slot holds more than its maximum before the call, none does after it,
    whether the call succeeds or not. *)
Theorem AddItem_within_capacity inv it w e inv' w' :
  0 <= item.count it ->
  0 <= max_count (item.item it) <= int_max ->
  Forall (item.within_capacity max_count) (slots inv) ->
  AddItem (ops := mops) inv it w = Returned (e, inv', w') ->
  Forall (item.within_capacity max_count) (slots inv').
Proof.
  intros Hit HM Hcap Hadd. rewrite AddItem_sweep in Hadd.
  pose proof (within_capacity_nonneg _ Hcap) as Hl.
  destruct (sweep existing_body 0 (slots inv) it) as [[l1 ws1] e1] eqn:E1.
  destruct (sweep_existing_room _ _ _ _ _ _ Hit Hl E1) as (_ & Hnn1 & _ & Hcap1).
  destruct (sweep_existing_quantity nil max_count _ _ _ _ _ _ Hit E1) as (Hrem1 & Hx1 & _).
  destruct e1 as [|it1].
  - injection Hadd as <- <- <-. by apply Hcap1.
  - destruct (sweep empty_body 0 l1 it1) as [[l2 ws2] e2] eqn:E2.
    cbn in Hrem1. specialize (Hx1 it1 eq_refl).
    assert (Hit1 : 0 <= item.count it1) by lia.
    destruct (sweep_empty_room _ _ _ _ _ _ Hit1 Hnn1 E2) as (_ & _ & _ & Hcap2).
    cbn in Hadd. injection Hadd as <- <- <-. cbn [slots].
    apply Hcap2; [by rewrite Hx1|by apply Hcap1].
Qed.

End Room.

(** ** What [RemoveItem] takes away *)

Section RemoveQuantities.
Context {Id : Type} {Id_eq_dec : EqDecision Id}.
Variable nil : Id.
Variable max_count : Id -> Z.
Context {World : Type}.
Local Abbreviation mops := (item.model_ops nil max_count).
Local Abbreviation Stack := (item.Stack Id).
Local Abbreviation int_stack := (fun s : item.Stack Id => 0 <= item.count s <= int_max).
Implicit Types (inv : Inventory Stack World) (w : World) (l : list Stack) (it s : Stack)
  (t : Id).

Lemma remove_body_model it s r :
  0 <= r <= int_max ->
  0 <= item.count s <= int_max ->
  remove_body (ops := mops) it s r
  = if item.count s =? 0 then Skip
    else if negb (bool_decide (item.item s = item.item it)) then Skip
    else Write (item.mkStack (item.item s) (Z.max 0 (item.count s - r)))
               (r - item.count s) (r - item.count s <=? 0).
Proof.
  intros Hr Hs. unfold remove_body. rewrite (Empty_count nil max_count).
  destruct (item.count s =? 0); [done|].
  rewrite (Comparable_item nil max_count).
  destruct (bool_decide (item.item s = item.item it)); [|done]. cbn [negb].
  change (item.Count (StackOps := mops) s) with (item.count s).
  rewrite (wrap_is_int (- r)) by (unfold is_int, int_min, int_max in *; lia).
  rewrite (wrap_is_int (r - item.count s))
    by (unfold is_int, int_min, int_max in *; lia).
  rewrite (Grow_count nil max_count). reflexivity.
Qed.

Lemma quantity_of_nonneg t l :
  Forall int_stack l -> 0 <= item.quantity_of t l.
Proof.
  induction 1 as [|s rest Hs _ IH]; cbn; [lia|]. case_bool_decide; lia.
Qed.

Lemma sweep_remove_quantity it l :
  forall i r l' ws e,
    0 < r <= int_max ->
    Forall int_stack l ->
    sweep (remove_body (ops := mops) it) i l r = (l', ws, e) ->
    item.quantity_of (item.item it) l'
    = Z.max 0 (item.quantity_of (item.item it) l - r)
    /\ (forall t, t <> item.item it -> item.quantity_of t l' = item.quantity_of t l)
    /\ match e with
       | ReturnedNil => r <= item.quantity_of (item.item it) l
       | FellThrough r' => r' = r - item.quantity_of (item.item it) l /\ 0 < r'
       end
    /\ (Forall (item.within_capacity max_count) l ->
        Forall (item.within_capacity max_count) l').
Proof.
  induction l as [|s rest IH]; intros i r l' ws e Hr Hl Hsweep.
  - cbn in Hsweep. injection Hsweep as <- <- <-. cbn.
    split; [lia|]. split; [done|]. split; [lia|done].
  - apply Forall_cons in Hl as [Hs Hrest0].
    pose proof (quantity_of_nonneg (item.item it) rest Hrest0) as Hq0.
    cbn [sweep] in Hsweep. rewrite remove_body_model in Hsweep by lia.
    cbn [item.quantity_of].
    destruct (Z.eqb_spec (item.count s) 0) as [Hs0|Hs0].
    { destruct (sweep _ (S i) rest r) as [[l0 ws0] e0] eqn:Hrest.
      injection Hsweep as <- <- <-.
      destruct (IH _ _ _ _ _ Hr Hrest0 Hrest) as (Hq & Hother & He & Hcap).
      cbn [item.quantity_of]. rewrite Hs0.
      split; [case_bool_decide; lia|]. split.
      - intros t Ht. rewrite (Hother t Ht). done.
      - split; [destruct e0; case_bool_decide; lia|].
        intros Hc. apply Forall_cons in Hc as [? ?]. constructor; auto. }
    case_bool_decide as Hcmp; cbn [negb] in Hsweep.
    2:{ destruct (sweep _ (S i) rest r) as [[l0 ws0] e0] eqn:Hrest.
        injection Hsweep as <- <- <-.
        destruct (IH _ _ _ _ _ Hr Hrest0 Hrest) as (Hq & Hother & He & Hcap).
        cbn [item.quantity_of]. rewrite bool_decide_false by done.
        split; [lia|]. split.
        - intros t Ht. rewrite (Hother t Ht). done.
        - split; [destruct e0; lia|].
          intros Hc. apply Forall_cons in Hc as [? ?]. constructor; auto. }
    assert (Hcap_s : item.within_capacity max_count s ->
                     item.within_capacity max_count
                       (item.mkStack (item.item s) (Z.max 0 (item.count s - r)))).
    { unfold item.within_capacity, item.model_MaxCount. cbn [item.item item.count]. lia. }
    destruct (Z.leb_spec (r - item.count s) 0) as [Hdone|Hmore].
    + injection Hsweep as <- <- <-.
      cbn [item.quantity_of item.item item.count]. rewrite bool_decide_true by done.
      split; [lia|]. split.
      * intros t Ht. rewrite !bool_decide_false by congruence. done.
      * split; [lia|].
        intros Hc. apply Forall_cons in Hc as [? ?]. constructor; auto.
    + destruct (sweep _ (S i) rest _) as [[l0 ws0] e0] eqn:Hrest.
      injection Hsweep as <- <- <-.
      apply IH in Hrest as (Hq & Hother & He & Hcap); [|lia|done].
      cbn [item.quantity_of item.item item.count]. rewrite bool_decide_true by done.
      split; [lia|]. split.
      * intros t Ht. rewrite !bool_decide_false by congruence.
        rewrite (Hother t Ht). done.
      * split; [destruct e0; lia|].
        intros Hc. apply Forall_cons in Hc as [? ?]. constructor; auto.
Qed.

(** X9: [RemoveItem] of a stack that holds something, on stacks whose counts
    are non-negative [int]s: it returns nil exactly when the inventory
    holds at least the count asked for of that identity; it then has taken
    away exactly that count, and otherwise everything the inventory held
    of the identity; the quantity of every other identity stays. *)
Theorem RemoveItem_quantities inv it w :
  0 < item.count it <= int_max ->
  Forall (fun s => 0 <= item.count s <= int_max) (slots inv) ->
  exists e inv' w',
    RemoveItem (ops := mops) inv it w = Returned (e, inv', w')
    /\ (e = None <-> item.count it <= item.quantity_of (item.item it) (slots inv))
    /\ item.quantity_of (item.item it) (slots inv')
       = Z.max 0 (item.quantity_of (item.item it) (slots inv) - item.count it)
    /\ forall t, t <> item.item it ->
                 item.quantity_of t (slots inv') = item.quantity_of t (slots inv).
Proof.
  intros Hit Hl. rewrite RemoveItem_sweep.
  destruct (sweep (remove_body it) 0 (slots inv) (item.Count (StackOps := mops) it))
    as [[l1 ws1] e1] eqn:E1.
  change (item.Count (StackOps := mops) it) with (item.count it) in E1.
  destruct (sweep_remove_quantity _ _ _ _ _ _ _ Hit Hl E1) as (Hq & Hother & He & _).
  eexists _, _, _. split; [done|]. cbn [slots].
  split; [|split; [done|done]].
  destruct e1 as [|r']; cbn; [split; [lia|done]|].
  split; [done|lia].
Qed.

(** X10: Composition: when [AddItem] of a stack returns nil, on an inventory
    whose stacks are within their maxima, [RemoveItem] of the same stack
    right afterwards returns nil as well and brings the quantity of every
    identity back to what it was before the two calls. *)
Theorem AddItem_then_RemoveItem inv it w inv1 w1 :
  0 < item.count it <= int_max ->
  0 <= max_count (item.item it) <= int_max ->
  Forall (item.within_capacity max_count) (slots inv) ->
  AddItem (ops := mops) inv it w = Returned (None, inv1, w1) ->
  exists inv2 w2,
    RemoveItem (ops := mops) inv1 it w1 = Returned (None, inv2, w2)
    /\ forall t, item.quantity_of t (slots inv2) = item.quantity_of t (slots inv).
Proof.
  intros Hit HM Hcap Hadd.
  assert (Hit0 : 0 <= item.count it) by lia.
  assert (Hl : Forall (fun s : Stack => 0 <= item.count s) (slots inv)).
  { eapply Forall_impl; [exact Hcap|]. intros s [? ?]. cbn. lia. }
  (* what the add did *)
  assert (Hadded : Forall (item.within_capacity max_count) (slots inv1)
                   /\ forall t, item.quantity_of t (slots inv1)
                                = item.quantity_of t (slots inv)
                                  + (if bool_decide (item.item it = t)
                                     then item.count it else 0)).
  { rewrite AddItem_sweep in Hadd.
    destruct (sweep existing_body 0 (slots inv) it) as [[l1 ws1] e1] eqn:E1.
    destruct (sweep_existing_room nil max_count _ _ _ _ _ _ Hit0 Hl E1)
      as (_ & Hnn1 & _ & Hcap1).
    destruct (sweep_existing_quantity nil max_count _ _ _ _ _ _ Hit0 E1)
      as (Hrem1 & Hx1 & Hq1).
    destruct e1 as [|it1].
    - injection Hadd as <- <-. cbn [slots]. split; [by apply Hcap1|].
      intros t. rewrite Hq1. cbn. case_bool_decide; lia.
    - destruct (sweep empty_body 0 l1 it1) as [[l2 ws2] e2] eqn:E2.
      cbn in Hrem1. specialize (Hx1 it1 eq_refl).
      assert (Hit1 : 0 <= item.count it1) by lia.
      destruct (sweep_empty_room nil max_count _ _ _ _ _ _ Hit1 Hnn1 E2)
        as (_ & _ & _ & Hcap2).
      destruct (sweep_empty_quantity nil max_count _ _ _ _ _ _ Hit1 E2) as (Hrem2 & Hq2).
      destruct e2 as [|it2]; cbn in Hadd; [|done].
      injection Hadd as <- <-. cbn [slots]. split.
      + apply Hcap2; [by rewrite Hx1|by apply Hcap1].
      + intros t. rewrite Hq2, Hq1, Hx1. cbn. case_bool_decide; lia. }
  destruct Hadded as (Hcap1 & Hq1).
  assert (Hl1 : Forall int_stack (slots inv1)).
  { eapply Forall_impl; [exact Hcap1|]. intros s [? ?]. cbn. lia. }
  pose proof (quantity_of_nonneg (item.item it) (slots inv)) as Hq0.
  rewrite RemoveItem_sweep.
  destruct (sweep (remove_body it) 0 (slots inv1) (item.Count (StackOps := mops) it))
    as [[l2 ws2] e2] eqn:E2.
  change (item.Count (StackOps := mops) it) with (item.count it) in E2.
  destruct (sweep_remove_quantity _ _ _ _ _ _ _ Hit Hl1 E2) as (Hq2 & Hother & He & _).
  assert (Hq0' : 0 <= item.quantity_of (item.item it) (slots inv)).
  { apply Hq0. eapply Forall_impl; [exact Hcap|]. intros s [? ?]. cbn. lia. }
  pose proof (Hq1 (item.item it)) as Hqit. rewrite bool_decide_true in Hqit by done.
  destruct e2 as [|r']; [|lia].
  eexists _, _. split; [done|]. cbn [slots].
  intros t. destruct (decide (t = item.item it)) as [->|Hne].
  - rewrite Hq2. lia.
  - rewrite (Hother t Hne), Hq1. rewrite bool_decide_false by congruence. lia.
Qed.

End RemoveQuantities.

(** * The item entity *)

Section ItemTicks.
Context {Stack : Type}.
Implicit Types (it : entity.Item Stack) (inputs : list (bool * Z * bool)).

(** The position test of a call of [Tick] says that the entity is not
    below the world; and no search, of the call itself or of another item
    entity, has closed the entity when the call is over. *)
Local Abbreviation above := (fun p : bool * Z * bool => p.1.1 = false).
Local Abbreviation undisturbed := (fun p : bool * Z * bool => p.2 = false).

Lemma Tick_above it (current : Z) :
  0 <= entity.age it < 6000 ->
  entity.Tick false current it
  = if entity.pickupDelay it =? 0
    then ({| entity.i := entity.i it; entity.age := entity.age it + 1;
             entity.pickupDelay := entity.pickupDelay it |}, entity.Searched)
    else if negb (entity.pickupDelay it =? entity.MaxInt16)
         then ({| entity.i := entity.i it; entity.age := entity.age it + 1;
                  entity.pickupDelay := wrap (entity.pickupDelay it - 1) |},
               entity.Waited)
         else ({| entity.i := entity.i it; entity.age := entity.age it + 1;
                  entity.pickupDelay := entity.pickupDelay it |}, entity.Waited).
Proof.
  intros Hage. unfold entity.Tick. cbn [andb].
  rewrite (wrap_is_int (entity.age it + 1)) by (unfold is_int, int_min, int_max; lia).
  cbn [entity.age entity.pickupDelay entity.i].
  destruct (Z.ltb_spec 6000 (entity.age it + 1)) as [|_]; [lia|]. done.
Qed.

Lemma Tick_expired it (below : bool) (current : Z) :
  entity.age it = 6000 -> (entity.Tick below current it).2 = entity.Despawned.
Proof.
  intros Hage. unfold entity.Tick.
  destruct (below && (Z.rem current 10 =? 0)); [done|].
  rewrite Hage, (wrap_is_int (6000 + 1)) by (unfold is_int, int_min, int_max; lia).
  done.
Qed.

Lemma Ticks_survives inputs :
  forall it,
    0 <= entity.age it ->
    Forall above inputs ->
    Forall undisturbed inputs ->
    entity.age it + Z.of_nat (length inputs) <= 6000 ->
    exists it' rs,
      entity.Ticks inputs it = (it', rs, true)
      /\ length rs = length inputs
      /\ (entity.Despawned ∉ rs)
      /\ entity.age it' = entity.age it + Z.of_nat (length inputs)
      /\ entity.i it' = entity.i it.
Proof.
  induction inputs as [|[[below current] closes] rest IH]; intros it Hage Hin Hun Hlen.
  - exists it, []. cbn. repeat split; [apply not_elem_of_nil|lia].
  - apply Forall_cons in Hin as [Hb Hrest]. cbn in Hb. subst below.
    apply Forall_cons in Hun as [Hc Hrest']. cbn in Hc. subst closes.
    cbn [length] in Hlen. cbn [entity.Ticks].
    rewrite Tick_above by lia.
    set (step := if entity.pickupDelay it =? 0 then _ else _).
    assert (Hstep : entity.age step.1 = entity.age it + 1
                    /\ entity.i step.1 = entity.i it
                    /\ step.2 <> entity.Despawned).
    { unfold step. destruct (entity.pickupDelay it =? 0); [done|].
      by destruct (negb (entity.pickupDelay it =? entity.MaxInt16)). }
    destruct step as [it1 r]. cbn in Hstep. destruct Hstep as (Hage1 & Hi1 & Hr).
    destruct (IH it1) as (it' & rs & Hrun & Hlen' & Hno & Hage' & Hi');
      [lia|done|done|lia|].
    exists it', (r :: rs).
    destruct r; [done| |]; rewrite Hrun; cbn [length];
      (repeat split; [by rewrite Hlen'| |lia|congruence]);
      intros Hin; apply elem_of_cons in Hin as [|]; done.
Qed.

Lemma Ticks_then_expired (below : bool) (current : Z) (closes : bool) inputs :
  forall it it1 rs,
    entity.Ticks inputs it = (it1, rs, true) ->
    (entity.Tick below current it1).2 = entity.Despawned ->
    entity.Ticks (inputs ++ [(below, current, closes)]) it
    = ((entity.Tick below current it1).1, rs ++ [entity.Despawned], false).
Proof.
  induction inputs as [|[[b c] cl] rest IH]; intros it it1 rs Hrun Hlast.
  - cbn in Hrun. injection Hrun as <- <-. cbn.
    destruct (entity.Tick below current it) as [it2 r]. cbn in Hlast. by subst r.
  - cbn [entity.Ticks app] in *.
    destruct (entity.Tick b c it) as [it2 r].
    destruct r.
    + done.
    + destruct cl; [done|].
      destruct (entity.Ticks rest it2) as [[it3 rs3] o3] eqn:Hrest.
      injection Hrun as <- <- ->.
      by rewrite (IH it2 it3 rs3 Hrest Hlast).
    + destruct cl; [done|].
      destruct (entity.Ticks rest it2) as [[it3 rs3] o3] eqn:Hrest.
      injection Hrun as <- <- ->.
      by rewrite (IH it2 it3 rs3 Hrest Hlast).
Qed.

(** X13: The age test of [Tick] gives an item entity 6000 calls counted from
    age 0.  For an entity of age [a] that stays above the bottom of the
    world and that no search closes in the meantime (neither its own
    [checkNearby], through [collect] or [merge], nor the [merge] of another
    item entity): none of the next [6000 - a] calls of [Tick] closes it,
    they leave its stack as it is and the entity is open after them; the
    call of [Tick] after those closes it, whatever its position and the
    tick number. *)
Theorem item_lifetime inputs it (below : bool) (current : Z) (closes : bool) :
  0 <= entity.age it <= 6000 ->
  Forall (fun p : bool * Z * bool => p.1.1 = false) inputs ->
  Forall (fun p : bool * Z * bool => p.2 = false) inputs ->
  Z.of_nat (length inputs) = 6000 - entity.age it ->
  exists it0 it' rs,
    entity.Ticks inputs it = (it0, rs, true)
    /\ entity.Ticks (inputs ++ [(below, current, closes)]) it
       = (it', rs ++ [entity.Despawned], false)
    /\ length rs = length inputs
    /\ (entity.Despawned ∉ rs)
    /\ entity.i it0 = entity.i it
    /\ entity.i it' = entity.i it.
Proof.
  intros Hage Hin Hun Hlen.
  destruct (Ticks_survives inputs it) as (it1 & rs & Hrun & Hlen1 & Hno & Hage1 & Hi1);
    [lia|done|done|lia|].
  assert (Hage6000 : entity.age it1 = 6000) by lia.
  pose proof (Tick_expired it1 below current Hage6000) as Hlast.
  exists it1, (entity.Tick below current it1).1, rs.
  split; [done|]. split; [by apply Ticks_then_expired|].
  repeat split; [done|done|done|].
  rewrite <- Hi1. unfold entity.Tick. destruct (below && _); [done|].
  destruct (6000 <? _); [done|]. cbn.
  destruct (entity.pickupDelay it1 =? 0); [done|].
  by destruct (negb _).
Qed.

End ItemTicks.

Section PickupDelay.
Context {Stack : Type}.
Implicit Types (it : entity.Item Stack) (inputs : list (bool * Z * bool)).


Lemma Ticks_never_searches inputs :
  forall it,
    entity.pickupDelay it = entity.MaxInt16 ->
    (entity.Searched ∉ (entity.Ticks inputs it).1.2)
    /\ entity.pickupDelay (entity.Ticks inputs it).1.1 = entity.MaxInt16.
Proof.
  induction inputs as [|[[below current] closes] rest IH]; intros it Hd.
  - cbn. split; [apply not_elem_of_nil|done].
  - cbn [entity.Ticks]. unfold entity.Tick.
    destruct (below && (Z.rem current 10 =? 0)).
    { cbn. split; [|done]. intros Hin. apply list_elem_of_singleton in Hin. done. }
    cbn [entity.age entity.pickupDelay entity.i].
    destruct (6000 <? wrap (entity.age it + 1)).
    { cbn. split; [|done]. intros Hin. apply list_elem_of_singleton in Hin. done. }
    rewrite Hd. replace (entity.MaxInt16 =? 0) with false by done.
    rewrite Z.eqb_refl. cbn [negb].
    set (it1 := {| entity.i := entity.i it; entity.age := wrap (entity.age it + 1);
                   entity.pickupDelay := entity.MaxInt16 |}).
    destruct closes.
    { cbn. split; [|done]. intros Hin. apply list_elem_of_singleton in Hin. done. }
    destruct (IH it1 eq_refl) as (Hno & Hd1).
    destruct (entity.Ticks rest it1) as [[it2 rs] open]. cbn in *. split; [|done].
    intros Hin. apply elem_of_cons in Hin as [|]; done.
Qed.

End PickupDelay.

Section NoSearch.
Context {Stack ItemT : Type} {ops : item.StackOps Stack ItemT}.
Variable nbt : Stack -> Stack.
Implicit Types (it searcher : entity.Item Stack) (inputs : list (bool * Z * bool)).

(** X15: A pickup delay set from a negative number of ticks, or from
    [MaxInt16] ticks or more, is never over: whatever calls of [Tick] on the
    entity follow, none of them runs [checkNearby], so the entity never
    looks for a collector, which is the only way it is picked up, nor for a
    stack to merge with.  The delay does not keep other item entities from
    merging with it: [merge], run by the search of another item entity,
    does not read the delay of the entity it finds and does to this one
    what it did before the delay was set. *)
Theorem never_picked_up (ticks : Z) it searcher inputs :
  ticks < 0 \/ entity.MaxInt16 <= ticks ->
  (entity.Searched ∉ (entity.Ticks inputs (entity.SetPickupDelay ticks it)).1.2)
  /\ entity.merge nbt searcher (entity.SetPickupDelay ticks it)
     = entity.merge nbt searcher it.
Proof.
  intros Hticks. split; [|reflexivity].
  apply Ticks_never_searches.
  unfold entity.SetPickupDelay. cbn.
  destruct (Z.ltb_spec ticks 0); cbn; [done|].
  destruct (Z.leb_spec entity.MaxInt16 ticks); [done|lia].
Qed.

End NoSearch.

(** ** The stacks of item entities, on the stack of the capability
    description *)

Section ItemStacks.
Context {Id : Type} {Id_eq_dec : EqDecision Id}.
Variable nil : Id.
Variable max_count : Id -> Z.
Variable nbt : item.Stack Id -> item.Stack Id.
Local Abbreviation mops := (item.model_ops nil max_count).
Local Abbreviation Stack := (item.Stack Id).
Local Abbreviation Item := (entity.Item (item.Stack Id)).
Implicit Types (it other : Item) (s : Stack).

Lemma NewItem_within s :
  item.count s <= max_count (item.item s) ->
  entity.NewItem (ops := mops) nbt s
  = {| entity.i := nbt s; entity.age := 0; entity.pickupDelay := 40 |}.
Proof.
  intros Hs. unfold entity.NewItem. cbn.
  unfold item.model_MaxCount, item.model_Count.
  destruct (Z.ltb_spec (max_count (item.item s)) (item.count s)); [lia|done].
Qed.

(** X16: [NewItem] does not bring a stack that is over its maximum down to it:
    for a count [c] above the maximum [m], the stack that goes through the
    NBT round trip and into the entity has the count [2 * c - m], which is
    more than [c]. *)
Theorem NewItem_over_max s :
  0 <= max_count (item.item s) < item.count s ->
  item.count s <= int_max ->
  entity.NewItem (ops := mops) nbt s
  = {| entity.i :=
         nbt (item.mkStack (item.item s) (2 * item.count s - max_count (item.item s)));
       entity.age := 0; entity.pickupDelay := 40 |}
  /\ item.count s < 2 * item.count s - max_count (item.item s).
Proof.
  intros Hs Hint. split; [|lia]. unfold entity.NewItem. cbn.
  unfold item.model_MaxCount, item.model_Count, item.model_Grow.
  destruct (Z.ltb_spec (max_count (item.item s)) (item.count s)); [|lia].
  rewrite wrap_is_int by (unfold is_int, int_min, int_max in *; lia).
  do 3 f_equal. lia.
Qed.

(** X17: When [merge] goes through, for two entities whose stacks are within
    their maxima, no unit is lost or made: the entity put in the place of
    the other one holds the round trip of a stack [a] of the other's
    identity, the one put in the place of the merging entity, if any, the
    round trip of a non-empty stack [b] of its own identity; the counts of
    [a] and [b] add up to the counts of the two stacks merged, [a] is within
    its maximum, and both old entities are closed. *)
Theorem merge_conserves it other es :
  item.within_capacity max_count (entity.i it) ->
  item.within_capacity max_count (entity.i other) ->
  entity.merge (ops := mops) nbt it other = (true, es) ->
  exists a b,
    es = [entity.AddEntity
            {| entity.i := nbt a; entity.age := 0; entity.pickupDelay := 40 |}]
         ++ (if item.count b =? 0 then []
             else [entity.AddEntity
                     {| entity.i := nbt b; entity.age := 0; entity.pickupDelay := 40 |}])
         ++ [entity.CloseIt; entity.CloseOther]
    /\ item.item a = item.item (entity.i other)
    /\ item.item b = item.item (entity.i it)
    /\ item.count a + item.count b
       = item.count (entity.i it) + item.count (entity.i other)
    /\ item.count (entity.i other) <= item.count a <= max_count (item.item a)
    /\ 0 <= item.count b.
Proof.
  intros [Hit HMit] [Hother HMother] Hmerge. unfold entity.merge in Hmerge.
  unfold item.model_MaxCount in *.
  destruct (_ || _); [done|].
  rewrite (Comparable_item nil max_count) in Hmerge.
  case_bool_decide as Hcmp; cbn [negb] in Hmerge; [|done].
  rewrite (AddStack_comparable nil max_count) in Hmerge by done.
  cbv beta iota zeta in Hmerge.
  set (diff := Z.max 0 (Z.min (max_count (item.item (entity.i other))
                               - item.count (entity.i other))
                              (item.count (entity.i it)))) in Hmerge.
  assert (Hdiff : 0 <= diff <= item.count (entity.i it)
                  /\ item.count (entity.i other) + diff
                     <= max_count (item.item (entity.i other)))
    by (unfold diff; lia).
  rewrite !NewItem_within in Hmerge by (cbn; lia).
  rewrite (Empty_count nil max_count) in Hmerge. cbn [item.count] in Hmerge.
  injection Hmerge as <-.
  exists (item.mkStack (item.item (entity.i other)) (item.count (entity.i other) + diff)),
    (item.mkStack (item.item (entity.i it)) (item.count (entity.i it) - diff)).
  cbn [item.item item.count].
  split.
  - destruct (item.count (entity.i it) - diff =? 0); reflexivity.
  - repeat split; lia.
Qed.

(** X18: [collect], when the collector reports a count between 1 and the count
    of the stack: every viewer is told, the entity is closed, and what the
    collector did not take goes back into the world first, as the entity
    that [NewItem] makes of a stack of the remaining units, none being
    added when everything was taken.  When the remaining units are within
    the maximum, that entity holds exactly them, up to the NBT round
    trip. *)
Theorem collect_remainder (n : Z) (viewers : nat) it :
  0 <= item.count (entity.i it) <= int_max ->
  0 < n <= item.count (entity.i it) ->
  entity.collect (ops := mops) nbt n viewers it
  = replicate viewers entity.ViewEntityAction
    ++ (if n =? item.count (entity.i it) then [entity.CloseIt]
        else [entity.AddEntity
                (entity.NewItem (ops := mops) nbt
                   (item.mkStack (item.item (entity.i it))
                      (item.count (entity.i it) - n)));
              entity.CloseIt])
  /\ (item.count (entity.i it) - n <= max_count (item.item (entity.i it)) ->
      entity.NewItem (ops := mops) nbt
        (item.mkStack (item.item (entity.i it)) (item.count (entity.i it) - n))
      = {| entity.i :=
             nbt (item.mkStack (item.item (entity.i it))
                    (item.count (entity.i it) - n));
           entity.age := 0; entity.pickupDelay := 40 |}).
Proof.
  intros Hit Hn. split.
  - unfold entity.collect.
    destruct (Z.eqb_spec n 0) as [|_]; [lia|].
    change (item.Count (StackOps := mops) (entity.i it)) with (item.count (entity.i it)).
    destruct (n =? item.count (entity.i it)); [done|].
    rewrite wrap_is_int by (unfold is_int, int_min, int_max in *; lia).
    rewrite (Grow_count nil max_count).
    replace (Z.max 0 (item.count (entity.i it) + - n))
      with (item.count (entity.i it) - n) by lia.
    done.
  - intros Hmax. by apply NewItem_within.
Qed.

End ItemStacks.

(** * Instances of the further properties *)

Lemma SetItem_other_slots_witness :
  0 <= 1 < Size scenario.fresh2
  /\ 0 <> 1
  /\ exists inv' w',
      SetItem scenario.fresh2 1 (scenario.A 7) [] = Returned (None, inv', w')
      /\ Item (ops := scenario.ops) inv' 0 = Item (ops := scenario.ops) scenario.fresh2 0.
Proof.
  split; [concrete|]. split; [lia|].
  apply (SetItem_other_slots (ops := scenario.ops) scenario.fresh2 [] 1 (scenario.A 7) 0);
    [concrete|lia].
Defined.

Lemma New_all_zero_witness :
  item.Empty (StackOps := scenario.ops) (item.zero (StackOps := scenario.ops)) = true
  /\ 0 <= 1 < 2
  /\ exists inv,
      New (ops := scenario.ops) (World := scenario.World) 2 None = Returned inv
      /\ Item (ops := scenario.ops) inv 1
         = Returned (item.zero (StackOps := scenario.ops), None)
      /\ Empty (ops := scenario.ops) inv = true.
Proof.
  split; [reflexivity|]. split; [lia|].
  apply (New_all_zero (ops := scenario.ops) 2 None 1); [reflexivity|lia].
Defined.

Lemma Empty_iff_Item_witness :
  0 < Size scenario.fresh2
  /\ (Empty (ops := scenario.ops) scenario.fresh2 = true
      <-> forall slot s,
            Item (ops := scenario.ops) scenario.fresh2 slot = Returned (s, None) ->
            item.Empty (StackOps := scenario.ops) s = true).
Proof.
  split; [concrete|].
  apply (Empty_iff_Item (ops := scenario.ops) scenario.fresh2). concrete.
Defined.

Lemma notifications_replay_witness :
  f scenario.fresh2 = recorder
  /\ forallb (fun c => negb (is_Close c))
       [CallAddItem (scenario.A 40); CallAddItem (scenario.A 30);
        CallRemoveItem (scenario.A 50)] = true
  /\ run_all (ops := scenario.ops)
       [CallAddItem (scenario.A 40); CallAddItem (scenario.A 30);
        CallRemoveItem (scenario.A 50)] scenario.fresh2 []
     = Returned ([ReplyError None; ReplyError None; ReplyError None],
                 scenario.holding [scenario.A 14; scenario.A 6],
                 [(0, scenario.A 40); (0, scenario.A 64); (1, scenario.A 6);
                  (0, scenario.A 14)])
  /\ slots (scenario.holding [scenario.A 14; scenario.A 6])
     = apply_writes
         [(0, scenario.A 40); (0, scenario.A 64); (1, scenario.A 6); (0, scenario.A 14)]
         (slots scenario.fresh2).
Proof.
  split; [reflexivity|]. split; [reflexivity|]. split; [reflexivity|].
  apply (notifications_replay (ops := scenario.ops)
           [CallAddItem (scenario.A 40); CallAddItem (scenario.A 30);
            CallRemoveItem (scenario.A 50)]
           scenario.fresh2
           [ReplyError None; ReplyError None; ReplyError None]);
    reflexivity.
Defined.

Lemma RemoveItem_keeps_others_witness :
  RemoveItem (ops := scenario.ops)
    (scenario.holding [scenario.A 64; scenario.B 3; scenario.A 6]) (scenario.A 70) []
  = Returned (None, scenario.holding [scenario.A 0; scenario.B 3; scenario.A 0],
              [(0, scenario.A 0); (2, scenario.A 0)])
  /\ slots (scenario.holding [scenario.A 64; scenario.B 3; scenario.A 6]) !! 1%nat
     = Some (scenario.B 3)
  /\ matches (ops := scenario.ops) (scenario.A 70) (scenario.B 3) = false
  /\ slots (scenario.holding [scenario.A 0; scenario.B 3; scenario.A 0]) !! 1%nat
     = Some (scenario.B 3).
Proof.
  split; [reflexivity|]. split; [reflexivity|]. split; [reflexivity|].
  apply (RemoveItem_keeps_others (ops := scenario.ops)
           (scenario.holding [scenario.A 64; scenario.B 3; scenario.A 6])
           (scenario.A 70) [] None
           (scenario.holding [scenario.A 0; scenario.B 3; scenario.A 0])
           [(0, scenario.A 0); (2, scenario.A 0)] 1 (scenario.B 3));
    reflexivity.
Defined.

(** Closes a statement about each of the stacks of a concrete list. *)
Ltac each_stack :=
  repeat (apply List.Forall_cons;
          [unfold item.within_capacity, item.model_MaxCount, scenario.max_count, int_max;
           cbn; lia|]);
  apply List.Forall_nil.

Lemma AddItem_quantities_witness :
  0 <= item.count (scenario.A 30)
  /\ AddItem (ops := scenario.ops)
       (scenario.holding [scenario.A 40; scenario.B 3; item.zero (StackOps := scenario.ops)])
       (scenario.A 30) []
     = Returned (None,
                 scenario.holding [scenario.A 64; scenario.B 3; scenario.A 6],
                 [(0, scenario.A 64); (1, scenario.B 3); (2, scenario.A 6)])
  /\ exists placed,
      0 <= placed <= item.count (scenario.A 30)
      /\ (@None error = None -> placed = item.count (scenario.A 30))
      /\ forall t,
           item.quantity_of t
             (slots (scenario.holding [scenario.A 64; scenario.B 3; scenario.A 6]))
           = item.quantity_of t
               (slots (scenario.holding
                         [scenario.A 40; scenario.B 3;
                          item.zero (StackOps := scenario.ops)]))
             + (if bool_decide (item.item (scenario.A 30) = t) then placed else 0).
Proof.
  split; [cbn; lia|]. split; [reflexivity|].
  apply (AddItem_quantities "" scenario.max_count
           (scenario.holding [scenario.A 40; scenario.B 3;
                              item.zero (StackOps := scenario.ops)])
           (scenario.A 30) [] None
           (scenario.holding [scenario.A 64; scenario.B 3; scenario.A 6])
           [(0, scenario.A 64); (1, scenario.B 3); (2, scenario.A 6)]);
    [cbn; lia|reflexivity].
Defined.

Lemma AddItem_succeeds_iff_room_witness :
  0 < item.count (scenario.A 100)
  /\ Forall (fun s => 0 <= item.count s)
       (slots (scenario.holding [scenario.A 40; scenario.B 3;
                                 item.zero (StackOps := scenario.ops)]))
  /\ exists e inv' w',
      AddItem (ops := scenario.ops)
        (scenario.holding [scenario.A 40; scenario.B 3;
                           item.zero (StackOps := scenario.ops)])
        (scenario.A 100) []
      = Returned (e, inv', w')
      /\ (e = None
          <-> item.count (scenario.A 100)
              <= item.room_for scenario.max_count (scenario.A 100)
                   (slots (scenario.holding
                             [scenario.A 40; scenario.B 3;
                              item.zero (StackOps := scenario.ops)]))).
Proof.
  assert (H2 : Forall (fun s : item.Stack string => 0 <= item.count s)
                 (slots (scenario.holding
                           [scenario.A 40; scenario.B 3;
                            item.zero (StackOps := scenario.ops)]))).
  { each_stack. }
  split; [cbn; lia|]. split; [exact H2|].
  apply (AddItem_succeeds_iff_room "" scenario.max_count
           (scenario.holding [scenario.A 40; scenario.B 3;
                              item.zero (StackOps := scenario.ops)])
           (scenario.A 100) []); [cbn; lia|exact H2].
Defined.

Lemma AddItem_within_capacity_witness :
  0 <= item.count (scenario.A 100)
  /\ 0 <= scenario.max_count (item.item (scenario.A 100)) <= int_max
  /\ Forall (item.within_capacity scenario.max_count)
       (slots (scenario.holding [scenario.A 40; scenario.B 3]))
  /\ AddItem (ops := scenario.ops) (scenario.holding [scenario.A 40; scenario.B 3])
       (scenario.A 100) []
     = Returned (Some ErrCouldNotAdd, scenario.holding [scenario.A 64; scenario.B 3],
                 [(0, scenario.A 64); (1, scenario.B 3)])
  /\ Forall (item.within_capacity scenario.max_count)
       (slots (scenario.holding [scenario.A 64; scenario.B 3])).
Proof.
  assert (H2 : 0 <= scenario.max_count (item.item (scenario.A 100)) <= int_max)
    by (unfold scenario.max_count, int_max; lia).
  assert (H3 : Forall (item.within_capacity scenario.max_count)
                 (slots (scenario.holding [scenario.A 40; scenario.B 3]))).
  { each_stack. }
  split; [cbn; lia|]. split; [exact H2|]. split; [exact H3|]. split; [reflexivity|].
  apply (AddItem_within_capacity "" scenario.max_count
           (scenario.holding [scenario.A 40; scenario.B 3]) (scenario.A 100) []
           (Some ErrCouldNotAdd) (scenario.holding [scenario.A 64; scenario.B 3])
           [(0, scenario.A 64); (1, scenario.B 3)]);
    [cbn; lia|exact H2|exact H3|reflexivity].
Defined.

Lemma RemoveItem_quantities_witness :
  0 < item.count (scenario.A 50) <= int_max
  /\ Forall (fun s => 0 <= item.count s <= int_max)
       (slots (scenario.holding [scenario.A 64; scenario.B 3; scenario.A 6]))
  /\ exists e inv' w',
      RemoveItem (ops := scenario.ops)
        (scenario.holding [scenario.A 64; scenario.B 3; scenario.A 6]) (scenario.A 50) []
      = Returned (e, inv', w')
      /\ (e = None
          <-> item.count (scenario.A 50)
              <= item.quantity_of (item.item (scenario.A 50))
                   (slots (scenario.holding [scenario.A 64; scenario.B 3; scenario.A 6])))
      /\ item.quantity_of (item.item (scenario.A 50)) (slots inv')
         = Z.max 0
             (item.quantity_of (item.item (scenario.A 50))
                (slots (scenario.holding [scenario.A 64; scenario.B 3; scenario.A 6]))
              - item.count (scenario.A 50))
      /\ forall t, t <> item.item (scenario.A 50) ->
                   item.quantity_of t (slots inv')
                   = item.quantity_of t
                       (slots (scenario.holding
                                 [scenario.A 64; scenario.B 3; scenario.A 6])).
Proof.
  assert (H1 : 0 < item.count (scenario.A 50) <= int_max)
    by (cbn; unfold int_max; lia).
  assert (H2 : Forall (fun s : item.Stack string => 0 <= item.count s <= int_max)
                 (slots (scenario.holding [scenario.A 64; scenario.B 3; scenario.A 6]))).
  { each_stack. }
  split; [exact H1|]. split; [exact H2|].
  exact (RemoveItem_quantities "" scenario.max_count
           (scenario.holding [scenario.A 64; scenario.B 3; scenario.A 6])
           (scenario.A 50) [] H1 H2).
Defined.

Lemma AddItem_then_RemoveItem_witness :
  0 < item.count (scenario.A 30) <= int_max
  /\ 0 <= scenario.max_count (item.item (scenario.A 30)) <= int_max
  /\ Forall (item.within_capacity scenario.max_count)
       (slots (scenario.holding [scenario.A 40; scenario.B 3;
                                 item.zero (StackOps := scenario.ops)]))
  /\ AddItem (ops := scenario.ops)
       (scenario.holding [scenario.A 40; scenario.B 3; item.zero (StackOps := scenario.ops)])
       (scenario.A 30) []
     = Returned (None, scenario.holding [scenario.A 64; scenario.B 3; scenario.A 6],
                 [(0, scenario.A 64); (1, scenario.B 3); (2, scenario.A 6)])
  /\ exists inv2 w2,
      RemoveItem (ops := scenario.ops)
        (scenario.holding [scenario.A 64; scenario.B 3; scenario.A 6]) (scenario.A 30)
        [(0, scenario.A 64); (1, scenario.B 3); (2, scenario.A 6)]
      = Returned (None, inv2, w2)
      /\ forall t,
           item.quantity_of t (slots inv2)
           = item.quantity_of t
               (slots (scenario.holding
                         [scenario.A 40; scenario.B 3;
                          item.zero (StackOps := scenario.ops)])).
Proof.
  assert (H1 : 0 < item.count (scenario.A 30) <= int_max)
    by (cbn; unfold int_max; lia).
  assert (H2 : 0 <= scenario.max_count (item.item (scenario.A 30)) <= int_max)
    by (unfold scenario.max_count, int_max; lia).
  assert (H3 : Forall (item.within_capacity scenario.max_count)
                 (slots (scenario.holding
                           [scenario.A 40; scenario.B 3;
                            item.zero (StackOps := scenario.ops)]))).
  { each_stack. }
  split; [exact H1|]. split; [exact H2|]. split; [exact H3|]. split; [reflexivity|].
  apply (AddItem_then_RemoveItem "" scenario.max_count
           (scenario.holding [scenario.A 40; scenario.B 3;
                              item.zero (StackOps := scenario.ops)])
           (scenario.A 30) []
           (scenario.holding [scenario.A 64; scenario.B 3; scenario.A 6])
           [(0, scenario.A 64); (1, scenario.B 3); (2, scenario.A 6)]
           H1 H2 H3).
  reflexivity.
Defined.

Lemma item_lifetime_witness :
  0 <= entity.age (scenario.item_entity (scenario.A 5) 5998 0) <= 6000
  /\ Forall (fun p : bool * Z * bool => p.1.1 = false)
       [(false, 7, false); (false, 8, false)]
  /\ Forall (fun p : bool * Z * bool => p.2 = false)
       [(false, 7, false); (false, 8, false)]
  /\ Z.of_nat (length [(false, 7, false); (false, 8, false)])
     = 6000 - entity.age (scenario.item_entity (scenario.A 5) 5998 0)
  /\ exists it0 it' rs,
      entity.Ticks [(false, 7, false); (false, 8, false)]
        (scenario.item_entity (scenario.A 5) 5998 0)
      = (it0, rs, true)
      /\ entity.Ticks ([(false, 7, false); (false, 8, false)] ++ [(false, 9, false)])
           (scenario.item_entity (scenario.A 5) 5998 0)
         = (it', rs ++ [entity.Despawned], false)
      /\ length rs = length [(false, 7, false); (false, 8, false)]
      /\ (entity.Despawned ∉ rs)
      /\ entity.i it0 = entity.i (scenario.item_entity (scenario.A 5) 5998 0)
      /\ entity.i it' = entity.i (scenario.item_entity (scenario.A 5) 5998 0).
Proof.
  assert (H2 : Forall (fun p : bool * Z * bool => p.1.1 = false)
                 [(false, 7, false); (false, 8, false)]) by (repeat constructor).
  assert (H3 : Forall (fun p : bool * Z * bool => p.2 = false)
                 [(false, 7, false); (false, 8, false)]) by (repeat constructor).
  split; [cbn; lia|]. split; [exact H2|]. split; [exact H3|]. split; [reflexivity|].
  apply (item_lifetime [(false, 7, false); (false, 8, false)]
           (scenario.item_entity (scenario.A 5) 5998 0) false 9 false);
    [cbn; lia|exact H2|exact H3|reflexivity].
Defined.


Lemma never_picked_up_witness :
  (-1 < 0 \/ entity.MaxInt16 <= -1)
  /\ entity.merge (ops := scenario.ops) scenario.same_stack
       (scenario.item_entity (scenario.A 40) 0 0)
       (entity.SetPickupDelay (-1) (scenario.item_entity (scenario.A 5) 0 0))
     = (true,
        [entity.AddEntity (scenario.item_entity (scenario.A 45) 0 40);
         entity.CloseIt; entity.CloseOther])
  /\ (entity.Searched
      ∉ (entity.Ticks [(false, 1, false); (false, 2, false); (false, 3, true)]
           (entity.SetPickupDelay (-1) (scenario.item_entity (scenario.A 5) 0 0))).1.2)
  /\ entity.merge (ops := scenario.ops) scenario.same_stack
       (scenario.item_entity (scenario.A 40) 0 0)
       (entity.SetPickupDelay (-1) (scenario.item_entity (scenario.A 5) 0 0))
     = entity.merge (ops := scenario.ops) scenario.same_stack
         (scenario.item_entity (scenario.A 40) 0 0)
         (scenario.item_entity (scenario.A 5) 0 0).
Proof.
  split; [left; lia|]. split; [reflexivity|].
  apply (never_picked_up (ops := scenario.ops) scenario.same_stack (-1)
           (scenario.item_entity (scenario.A 5) 0 0)
           (scenario.item_entity (scenario.A 40) 0 0)
           [(false, 1, false); (false, 2, false); (false, 3, true)]).
  left. lia.
Defined.

Lemma NewItem_over_max_witness :
  0 <= scenario.max_count (item.item (scenario.A 70)) < item.count (scenario.A 70)
  /\ item.count (scenario.A 70) <= int_max
  /\ entity.NewItem (ops := scenario.ops) scenario.same_stack (scenario.A 70)
     = scenario.item_entity (scenario.A 76) 0 40
  /\ 70 < 76.
Proof.
  split; [cbn; unfold scenario.max_count; lia|]. split; [cbn; unfold int_max; lia|].
  apply (NewItem_over_max "" scenario.max_count scenario.same_stack (scenario.A 70)).
  - cbn. unfold scenario.max_count. lia.
  - cbn. unfold int_max. lia.
Defined.

Lemma merge_conserves_witness :
  item.within_capacity scenario.max_count
    (entity.i (scenario.item_entity (scenario.A 40) 0 0))
  /\ item.within_capacity scenario.max_count
       (entity.i (scenario.item_entity (scenario.A 50) 0 0))
  /\ entity.merge (ops := scenario.ops) scenario.same_stack
       (scenario.item_entity (scenario.A 40) 0 0)
       (scenario.item_entity (scenario.A 50) 0 0)
     = (true,
        [entity.AddEntity (scenario.item_entity (scenario.A 64) 0 40);
         entity.AddEntity (scenario.item_entity (scenario.A 26) 0 40);
         entity.CloseIt; entity.CloseOther])
  /\ exists a b,
      [entity.AddEntity (scenario.item_entity (scenario.A 64) 0 40);
       entity.AddEntity (scenario.item_entity (scenario.A 26) 0 40);
       entity.CloseIt; entity.CloseOther]
      = [entity.AddEntity
           {| entity.i := scenario.same_stack a; entity.age := 0;
              entity.pickupDelay := 40 |}]
        ++ (if item.count b =? 0 then []
            else [entity.AddEntity
                    {| entity.i := scenario.same_stack b; entity.age := 0;
                       entity.pickupDelay := 40 |}])
        ++ [entity.CloseIt; entity.CloseOther]
      /\ item.item a = item.item (entity.i (scenario.item_entity (scenario.A 50) 0 0))
      /\ item.item b = item.item (entity.i (scenario.item_entity (scenario.A 40) 0 0))
      /\ item.count a + item.count b
         = item.count (entity.i (scenario.item_entity (scenario.A 40) 0 0))
           + item.count (entity.i (scenario.item_entity (scenario.A 50) 0 0))
      /\ item.count (entity.i (scenario.item_entity (scenario.A 50) 0 0))
         <= item.count a <= scenario.max_count (item.item a)
      /\ 0 <= item.count b.
Proof.
  assert (H1 : item.within_capacity scenario.max_count
                 (entity.i (scenario.item_entity (scenario.A 40) 0 0)))
    by (unfold item.within_capacity, item.model_MaxCount, scenario.max_count, int_max;
        cbn; lia).
  assert (H2 : item.within_capacity scenario.max_count
                 (entity.i (scenario.item_entity (scenario.A 50) 0 0)))
    by (unfold item.within_capacity, item.model_MaxCount, scenario.max_count, int_max;
        cbn; lia).
  split; [exact H1|]. split; [exact H2|]. split; [reflexivity|].
  apply (merge_conserves "" scenario.max_count scenario.same_stack
           (scenario.item_entity (scenario.A 40) 0 0)
           (scenario.item_entity (scenario.A 50) 0 0) _ H1 H2).
  reflexivity.
Defined.

Lemma collect_remainder_witness :
  0 <= item.count (entity.i (scenario.item_entity (scenario.A 100) 0 0)) <= int_max
  /\ 0 < 10 <= item.count (entity.i (scenario.item_entity (scenario.A 100) 0 0))
  /\ entity.collect (ops := scenario.ops) scenario.same_stack 10 2
       (scenario.item_entity (scenario.A 100) 0 0)
     = replicate 2 entity.ViewEntityAction
       ++ (if 10 =? item.count (entity.i (scenario.item_entity (scenario.A 100) 0 0))
           then [entity.CloseIt]
           else [entity.AddEntity
                   (entity.NewItem (ops := scenario.ops) scenario.same_stack
                      (scenario.A (100 - 10)));
                 entity.CloseIt])
  /\ (item.count (entity.i (scenario.item_entity (scenario.A 100) 0 0)) - 10
      <= scenario.max_count (item.item (entity.i (scenario.item_entity (scenario.A 100) 0 0)))
      -> entity.NewItem (ops := scenario.ops) scenario.same_stack (scenario.A (100 - 10))
         = {| entity.i := scenario.same_stack (scenario.A (100 - 10));
              entity.age := 0; entity.pickupDelay := 40 |}).
Proof.
  assert (H1 : 0 <= item.count (entity.i (scenario.item_entity (scenario.A 100) 0 0))
               <= int_max) by (cbn; unfold int_max; lia).
  split; [exact H1|]. split; [cbn; lia|].
  apply (collect_remainder "" scenario.max_count scenario.same_stack 10 2
           (scenario.item_entity (scenario.A 100) 0 0) H1).
  cbn. lia.
Defined.

(** An entity that holds more than the maximum: [collect] of 10 of its 100
    units hands the remaining 90 to [NewItem], which makes an entity of 116
    of them; and [collect] of 15 of 40 adds an entity of the remaining 25. *)
Example collect_over_maximum :
  entity.collect (ops := scenario.ops) scenario.same_stack 10 2
    (scenario.item_entity (scenario.A 100) 0 0)
  = [entity.ViewEntityAction; entity.ViewEntityAction;
     entity.AddEntity (scenario.item_entity (scenario.A 116) 0 40); entity.CloseIt]
  /\ entity.collect (ops := scenario.ops) scenario.same_stack 15 2
       (scenario.item_entity (scenario.A 40) 0 0)
     = [entity.ViewEntityAction; entity.ViewEntityAction;
        entity.AddEntity (scenario.item_entity (scenario.A 25) 0 40); entity.CloseIt].
Proof. split; reflexivity. Qed.

Lemma RemoveItem_from_empty_witness :
  Empty (ops := scenario.ops) scenario.fresh2 = true
  /\ RemoveItem (ops := scenario.ops) scenario.fresh2 (scenario.A 0) []
     = Returned (Some ErrCouldNotRemove, scenario.fresh2, []).
Proof.
  split; [reflexivity|].
  apply (RemoveItem_from_empty (ops := scenario.ops) scenario.fresh2 (scenario.A 0) []).
  reflexivity.
Defined.
